(** * Network scanner: a shallow embedding of [scripts/network_scanner.py]

    The development follows the Python module top to bottom: the value
    model (Python dictionaries and lists as the script builds them), the
    [COMMON_PORTS] table, the socket layer [scan_port] talks to, [scan_port]
    itself, the thread pool and [scan_host], the port parsing of [main], and
    the JSON writer used for the [--output] file with the reader that loads
    such a file back.

    Conventions.
    - A Python [int] is a [Z]; a Python [str] is a [string], one character
      per code point (code points U+0000 .. U+00FF).
    - A Python [dict] is an association list in insertion order with
      distinct keys; [dict_get] is [d.get(k)] / [d[k]], [dict_set] is
      [d[k] = v].
    - A call that may raise returns [Ok v] or [Raise e]; exceptions carry the
      Python class that decides whether [except socket.error] catches them. *)

From Stdlib Require Import ZArith QArith String Ascii Bool Lia Arith.
From Stdlib Require Import DecimalFacts DecimalPos.
From Stdlib Require Import List Permutation Sorted.
Import ListNotations.
Open Scope string_scope.
Open Scope Z_scope.
Open Scope list_scope.

(** ** Python values *)

Module Py.

#[warnings="-register-all"]
Inductive pyval : Type :=
| PyNone
| PyInt (z : Z)
| PyStr (s : string)
| PyList (l : list pyval)
| PyDict (d : list (string * pyval)).

Definition dict := list (string * pyval).

Fixpoint dict_get (k : string) (d : dict) : option pyval :=
  match d with
  | [] => None
  | (k', v) :: d' => if String.eqb k k' then Some v else dict_get k d'
  end.

(** [d[k] = v]: overwrite in place when the key exists, else append. *)
Fixpoint dict_set (k : string) (v : pyval) (d : dict) : dict :=
  match d with
  | [] => [(k, v)]
  | (k', v') :: d' =>
      if String.eqb k k' then (k', v) :: d' else (k', v') :: dict_set k v d'
  end.

Definition dict_keys (d : dict) : list string := map fst d.

(** Exceptions, by the class that matters to the handlers of the script.
    [socket.error] is [OSError]; [socket.gaierror] and [socket.timeout] are
    subclasses of it. [ValueError], [OverflowError] and [TypeError] are
    not. *)
Inductive exn : Type :=
| OSError (errno : Z)
| Gaierror
| ValueError
| OverflowError
| TypeError.

Definition is_socket_error (e : exn) : bool :=
  match e with
  | OSError _ | Gaierror => true
  | ValueError | OverflowError | TypeError => false
  end.

Inductive result (A : Type) : Type :=
| Ok (a : A)
| Raise (e : exn).
Arguments Ok {A} a.
Arguments Raise {A} e.

Definition bind {A B} (m : result A) (k : A -> result B) : result B :=
  match m with
  | Ok a => k a
  | Raise e => Raise e
  end.

End Py.
Import Py.

Notation "x <- m ;; k" := (bind m (fun x => k))
  (at level 61, m at next level, right associativity).

(** ** The service table *)

(** [COMMON_PORTS], in the order the literal lists its entries; iterating a
    Python dict yields keys in insertion order. *)
Definition COMMON_PORTS : list (Z * string) :=
  [ (21, "FTP"); (22, "SSH"); (23, "Telnet"); (25, "SMTP"); (53, "DNS");
    (80, "HTTP"); (110, "POP3"); (143, "IMAP"); (443, "HTTPS"); (445, "SMB");
    (993, "IMAPS"); (995, "POP3S"); (3306, "MySQL"); (3389, "RDP");
    (5432, "PostgreSQL"); (8080, "HTTP-Proxy") ].

Definition COMMON_PORTS_keys : list Z := map fst COMMON_PORTS.

Fixpoint table_find (port : Z) (t : list (Z * string)) : option string :=
  match t with
  | [] => None
  | (p, s) :: t' => if Z.eqb port p then Some s else table_find port t'
  end.

(** [COMMON_PORTS.get(port, default)]. *)
Definition COMMON_PORTS_get (port : Z) (default : string) : string :=
  match table_find port COMMON_PORTS with
  | Some s => s
  | None => default
  end.

Definition in_catalog (port : Z) : Prop := In port COMMON_PORTS_keys.

(** ** The socket layer

    What one probe sees of the operating system and the network. The
    fields are the answers of the calls [scan_port] makes, in order:
    creating the socket, encoding a host name that is not plain ASCII,
    resolving the host inside [connect_ex], and the error code of the
    C-level [connect]. The timeout is a finite number (a [float] that is
    neither infinite nor NaN), and the bounds are those of CPython on a
    64-bit POSIX system. *)
Module Socket.

Record env : Type := {
  create_error : option Z;         (* [socket.socket(...)] raises OSError *)
  idna_encodes : string -> bool;   (* the IDNA codec accepts the host *)
  host_resolves : string -> bool;  (* false: [connect_ex] raises gaierror *)
  connect_errno : string -> Z -> Z (* 0 on success, an errno otherwise *)
}.

Definition socket_socket (e : env) : result unit :=
  match create_error e with
  | Some n => Raise (OSError n)
  | None => Ok tt
  end.

(** [sock.settimeout(t)]. The timeout is converted to a signed 64-bit count
    of nanoseconds, rounded away from zero; a value that does not fit is an
    [OverflowError]. A negative timeout that fits is a [ValueError]. (A
    platform that waits with a count of milliseconds in a C int refuses
    sooner, above 2147483.647 seconds.) *)
Definition time_min : Z := - 2 ^ 63.
Definition time_max : Z := 2 ^ 63 - 1.

Definition fits_time (t : Q) : bool :=
  let ns := (t * inject_Z (10 ^ 9))%Q in
  Qle_bool (inject_Z time_min) ns && Qle_bool ns (inject_Z time_max).

Definition settimeout (t : Q) : result unit :=
  if negb (fits_time t) then Raise OverflowError
  else if Qle_bool 0 t then Ok tt
  else Raise ValueError.

Definition c_int_min : Z := - 2 ^ 31.
Definition c_int_max : Z := 2 ^ 31 - 1.

Definition is_ascii_text (s : string) : bool :=
  forallb (fun c => (nat_of_ascii c <? 128)%nat) (list_ascii_of_string s).

Definition has_nul (s : string) : bool :=
  existsb (fun c => (nat_of_ascii c =? 0)%nat) (list_ascii_of_string s).

(** The conversion of the host to a C string: an ASCII name is taken as it
    is and must hold no NUL character; any other name goes through the IDNA
    codec. A failure is a [TypeError]. *)
Definition host_converts (e : env) (host : string) : bool :=
  if is_ascii_text host then negb (has_nul host) else idna_encodes e host.

(** [sock.connect_ex((host, port))]. The address is converted first: the
    host must convert to a C string and the port must fit a C int, then the
    host is resolved, then the port must lie in 0..65535; only then is the
    connection attempted, and its failure comes back as a return code, not
    as an exception. *)
Definition connect_ex (e : env) (host : string) (port : Z) : result Z :=
  if negb (host_converts e host) then Raise TypeError
  else if negb ((c_int_min <=? port) && (port <=? c_int_max)) then Raise OverflowError
  else if negb (host_resolves e host) then Raise Gaierror
  else if negb ((0 <=? port) && (port <=? 65535)) then Raise OverflowError
  else Ok (connect_errno e host port).

End Socket.

(** ** [scan_port] *)

Definition open_outcome (port : Z) (service : string) : pyval :=
  PyDict [("port", PyInt port); ("status", PyStr "open");
          ("service", PyStr service)].

Definition closed_outcome (port : Z) : pyval :=
  PyDict [("port", PyInt port); ("status", PyStr "closed");
          ("service", PyNone)].

(** The body of the [try] block up to the test of [result]. *)
Definition scan_port_try (e : Socket.env) (host : string) (port : Z)
    (timeout : Q) : result Z :=
  _ <- Socket.socket_socket e ;;
  _ <- Socket.settimeout timeout ;;
  r <- Socket.connect_ex e host port ;;
  Ok r.

Definition scan_port (e : Socket.env) (host : string) (port : Z)
    (timeout : Q) : result pyval :=
  match scan_port_try e host port timeout with
  | Ok r =>
      if Z.eqb r 0
      then Ok (open_outcome port (COMMON_PORTS_get port "Unknown"))
      else Ok (closed_outcome port)
  | Raise ex =>
      if is_socket_error ex          (* except socket.error: pass *)
      then Ok (closed_outcome port)
      else Raise ex
  end.

Definition default_timeout : Q := 1 # 1.

(** ** The thread pool

    [ThreadPoolExecutor(max_workers=n)] as a machine driven by a schedule.
    A future is the pair of its submission index and its port. The main
    thread submits the ports one by one; [submit] queues the work item and
    creates a worker thread when fewer than [max_workers] exist, unless it
    finds a worker idle; a worker that is free takes the head of the queue;
    a running probe finishes at some point. The schedule decides the
    interleaving, and whether [submit] found an idle worker. *)
Module Pool.

Definition future : Type := (nat * Z)%type.

Record state : Type := {
  todo : list future;      (* not yet submitted by the main thread *)
  queue : list future;     (* submitted, waiting for a worker *)
  workers : nat;           (* worker threads created so far *)
  running : list future;   (* being executed by a worker *)
  done : list future       (* finished, in completion order *)
}.

Inductive event : Type :=
| Submit (found_idle : bool)
| Start
| Finish (k : nat).

(** The constructor: [max_workers] must be greater than 0. *)
Definition executor (max_workers : Z) : result nat :=
  if max_workers <=? 0 then Raise ValueError else Ok (Z.to_nat max_workers).

Definition init (ports : list Z) : state :=
  {| todo := combine (seq 0 (length ports)) ports;
     queue := []; workers := 0; running := []; done := [] |}.

Fixpoint remove_nth {A} (k : nat) (l : list A) : list A :=
  match k, l with
  | _, [] => []
  | O, _ :: l' => l'
  | S k', x :: l' => x :: remove_nth k' l'
  end.

(** An event that is not enabled leaves the state as it is. *)
Definition step (max_workers : nat) (ev : event) (s : state) : state :=
  match ev with
  | Submit found_idle =>
      match todo s with
      | [] => s
      | f :: rest =>
          let spawn := (workers s <? max_workers)%nat
                       && ((workers s =? 0)%nat || negb found_idle) in
          {| todo := rest;
             queue := queue s ++ [f];
             workers := if spawn then S (workers s) else workers s;
             running := running s;
             done := done s |}
      end
  | Start =>
      match queue s with
      | [] => s
      | f :: rest =>
          if (length (running s) <? workers s)%nat
          then {| todo := todo s; queue := rest; workers := workers s;
                  running := running s ++ [f]; done := done s |}
          else s
      end
  | Finish k =>
      match nth_error (running s) k with
      | None => s
      | Some f =>
          {| todo := todo s; queue := queue s; workers := workers s;
             running := remove_nth k (running s);
             done := done s ++ [f] |}
      end
  end.

Definition run (max_workers : nat) (sched : list event) (s : state) : state :=
  fold_left (fun st ev => step max_workers ev st) sched s.

(** The states the pool goes through: [s], then the state after each event
    of the schedule. *)
Fixpoint trace (max_workers : nat) (sched : list event) (s : state)
    : list state :=
  s :: match sched with
       | [] => []
       | ev :: rest => trace max_workers rest (step max_workers ev s)
       end.

(** Where a trace ends. *)
Definition last_state (states : list state) : state :=
  last states {| todo := []; queue := []; workers := 0; running := [];
                 done := [] |}.

(** The schedule that lets everything left in [s] finish: the remaining
    submissions, then the running probes, then the queued ones one at a
    time. The executor's context manager waits for all of it on exit. *)
Definition drain (s : state) : list event :=
  repeat (Submit false) (length (todo s))
  ++ repeat (Finish 0) (length (running s))
  ++ concat (repeat [Start; Finish 0%nat] (length (queue s) + length (todo s))).

Definition full_schedule (max_workers : nat) (sched : list event)
    (ports : list Z) : list event :=
  sched ++ drain (run max_workers sched (init ports)).

Definition run_to_end (max_workers : nat) (sched : list event)
    (ports : list Z) : state :=
  run max_workers (full_schedule max_workers sched ports) (init ports).

(** Running probes are held by workers, and workers are never more than
    [max_workers]; once something is queued a worker exists. *)
Definition inv (max_workers : nat) (s : state) : Prop :=
  (length (running s) <= workers s)%nat
  /\ (workers s <= max_workers)%nat
  /\ ((1 <= max_workers)%nat -> queue s <> [] -> (1 <= workers s)%nat).

(** Every future is in exactly one of the four places. *)
Definition everything (s : state) : list future :=
  todo s ++ queue s ++ running s ++ done s.

Definition idle (s : state) : bool :=
  match todo s, queue s, running s with
  | [], [], [] => true
  | _, _, _ => false
  end.

End Pool.

(** ** [scan_host] *)

(** What a run of the scanner does not decide by itself: the clock, the
    answer of the socket layer to the probe of the i-th submitted future,
    and the interleaving of the pool's threads. *)
Record world : Type := {
  now : string;                (* [datetime.now().isoformat()] *)
  net : nat -> Socket.env;
  sched : list Pool.event;
  write_error : string -> option Z  (* writing the file raises OSError *)
}.

(** The outcome of a call together with the probes that were executed. *)
Record run (A : Type) : Type := {
  probed : list (string * Z);
  returned : result A
}.
Arguments probed {A} r.
Arguments returned {A} r.

Definition report_dict (host scan_time : string) (open_ports : list pyval)
    (closed_ports : Z) : dict :=
  [("host", PyStr host); ("scan_time", PyStr scan_time);
   ("open_ports", PyList open_ports); ("closed_ports", PyInt closed_ports)].

(** The [results] literal at the top of [scan_host]. *)
Definition new_results (host : string) (scan_time : string) : dict :=
  report_dict host scan_time [] 0.

(** [result['status'] == 'open'] *)
Definition status_is_open (result : pyval) : bool :=
  match result with
  | PyDict d =>
      match dict_get "status" d with
      | Some (PyStr s) => String.eqb s "open"
      | _ => false
      end
  | _ => false
  end.

(** The body of the [for future in as_completed(futures)] loop. Both keys
    are in [results] from its literal on; the other branches are never
    taken. *)
Definition collect (results : dict) (result : pyval) : dict :=
  if status_is_open result then
    match dict_get "open_ports" results with
    | Some (PyList l) => dict_set "open_ports" (PyList (l ++ [result])) results
    | _ => results
    end
  else
    match dict_get "closed_ports" results with
    | Some (PyInt n) => dict_set "closed_ports" (PyInt (n + 1)) results
    | _ => results
    end.

(** [future.result()] returns what [scan_port] returned or raises what it
    raised; an exception leaves the loop. The futures are taken in the order
    of completion; [as_completed] may hand out in another order those that
    had finished before the loop began. *)
Fixpoint collect_all (w : world) (host : string)
    (completed : list Pool.future) (results : dict) : result dict :=
  match completed with
  | [] => Ok results
  | (i, port) :: rest =>
      result <- scan_port (net w i) host port default_timeout ;;
      collect_all w host rest (collect results result)
  end.

(** [if ports is None: ports = list(COMMON_PORTS.keys())] *)
Definition ports_or_default (ports : option (list Z)) : list Z :=
  match ports with
  | None => COMMON_PORTS_keys
  | Some l => l
  end.

(** The [with ThreadPoolExecutor(max_workers=threads)] block, seen from the
    pool: the executor is created, the ports are submitted in order, and the
    block is left when every probe has finished. The value is the list of
    the states the pool went through. *)
Definition scan_pool (w : world) (ports : list Z) (threads : Z)
    : result (list Pool.state) :=
  max_workers <- Pool.executor threads ;;
  Ok (Pool.trace max_workers (Pool.full_schedule max_workers (sched w) ports)
        (Pool.init ports)).

Definition scan_host (w : world) (host : string) (ports : option (list Z))
    (threads : Z) : run pyval :=
  let ports := ports_or_default ports in
  let results := new_results host (now w) in
  match scan_pool w ports threads with
  | Raise e => {| probed := []; returned := Raise e |}
  | Ok states =>
      let final := Pool.last_state states in
      {| probed := map (fun f => (host, snd f)) (Pool.done final);
         returned := r <- collect_all w host (Pool.done final) results ;;
                     Ok (PyDict r) |}
  end.

(** ** Parsing the [--ports] argument *)

Module Str.

(** [s.split(sep)] for a one-character separator. *)
Fixpoint split (sep : ascii) (s : string) : list string :=
  match s with
  | EmptyString => [EmptyString]
  | String c s' =>
      if Ascii.eqb c sep then EmptyString :: split sep s'
      else match split sep s' with
           | [] => [String c EmptyString]
           | t :: ts => String c t :: ts
           end
  end.

(** [c in s] for a one-character [c]. *)
Fixpoint contains (c : ascii) (s : string) : bool :=
  match s with
  | EmptyString => false
  | String c' s' => Ascii.eqb c c' || contains c s'
  end.

Definition is_digit (c : ascii) : bool :=
  let n := nat_of_ascii c in ((48 <=? n) && (n <=? 57))%nat.

Definition digit_val (c : ascii) : Z := Z.of_nat (nat_of_ascii c) - 48.

(** White space as [int] sees it: tab, line feed, vertical tab, form feed,
    carriage return, space, and the two Latin-1 spaces U+0085 and U+00A0. *)
Definition is_space (c : ascii) : bool :=
  let n := nat_of_ascii c in
  (((9 <=? n) && (n <=? 13)) || (n =? 32) || (n =? 133) || (n =? 160))%nat.

Fixpoint lstrip (s : list ascii) : list ascii :=
  match s with
  | c :: s' => if is_space c then lstrip s' else s
  | [] => []
  end.

Definition strip (s : list ascii) : list ascii :=
  rev (lstrip (rev (lstrip s))).

(** Digits with single underscores between them; [prev_us] tells that the
    previous character was an underscore. *)
Fixpoint digits_value (acc : Z) (prev_us : bool) (s : list ascii)
    : option Z :=
  match s with
  | [] => if prev_us then None else Some acc
  | c :: s' =>
      if is_digit c then digits_value (10 * acc + digit_val c) false s'
      else if Ascii.eqb c "_" then
             if prev_us then None else digits_value acc true s'
      else None
  end.

Definition unsigned_value (s : list ascii) : option Z :=
  match s with
  | c :: _ => if is_digit c then digits_value 0 false s else None
  | [] => None
  end.

(** The longest numeral [int] and [str] convert (the default of CPython 3.11
    and later). *)
Definition max_str_digits : Z := 4300.

Definition count_digits (s : list ascii) : Z :=
  Z.of_nat (length (filter is_digit s)).

(** [int(s)] in base 10. *)
Definition py_int (s : string) : result Z :=
  let body := strip (list_ascii_of_string s) in
  let signed :=
    match body with
    | "-"%char :: rest => option_map Z.opp (unsigned_value rest)
    | "+"%char :: rest => unsigned_value rest
    | _ => unsigned_value body
    end in
  match signed with
  | Some z => if max_str_digits <? count_digits body then Raise ValueError
              else Ok z
  | None => Raise ValueError
  end.

End Str.

(** [[f(x) for x in l]] where [f] may raise. *)
Fixpoint map_result {A B} (f : A -> result B) (l : list A) : result (list B) :=
  match l with
  | [] => Ok []
  | x :: l' => y <- f x ;; ys <- map_result f l' ;; Ok (y :: ys)
  end.

(** The elements of [range(a, b)]. *)
Definition py_range (a b : Z) : list Z :=
  map (fun i => a + Z.of_nat i) (seq 0 (Z.to_nat (b - a))).

(** [list(range(a, b))]: a range of more than [sys.maxsize] elements has no
    length, and [list] raises [OverflowError]. Running out of memory for a
    shorter list is not modelled. *)
Definition ssize_max : Z := 2 ^ 63 - 1.

Definition py_list_range (a b : Z) : result (list Z) :=
  if ssize_max <? b - a then Raise OverflowError else Ok (py_range a b).

(** The block of [main] under the comment "Parse ports if provided". *)
Definition parse_ports (arg : option string) : result (option (list Z)) :=
  match arg with
  | None => Ok None
  | Some EmptyString => Ok None                 (* [if args.ports:] *)
  | Some s =>
      if Str.contains "-" s then
        (* [start, end = map(int, s.split('-'))] *)
        match Str.split "-" s with
        | [a; b] =>
            start <- Str.py_int a ;;
            end_ <- Str.py_int b ;;
            l <- py_list_range start (end_ + 1) ;;
            Ok (Some l)
        | _ => Raise ValueError      (* unpacking or [int] fails *)
        end
      else
        ports <- map_result Str.py_int (Str.split "," s) ;;
        Ok (Some ports)
  end.

(** ** The JSON writer and reader

    [json.dump(results, f, indent=2)] writes the text produced here;
    [json.loads] reads it back. Text is a list of characters; the value
    forms are those a report contains ([None], [int], [str], [list],
    [dict] with string keys). *)
Module Json.

Definition text := list ascii.

Definition DQ : ascii := ascii_of_nat 34.

Definition chars (s : string) : text := list_ascii_of_string s.

Definition hex_digit (n : nat) : ascii :=
  nth n (chars "0123456789abcdef") "0"%char.

(** One character of a string under [ensure_ascii=True]. *)
Definition escape_char (c : ascii) : text :=
  let n := nat_of_ascii c in
  if (n =? 34)%nat then ["\"%char; DQ]
  else if (n =? 92)%nat then chars "\\"
  else if (n =? 10)%nat then chars "\n"
  else if (n =? 13)%nat then chars "\r"
  else if (n =? 9)%nat then chars "\t"
  else if (n =? 8)%nat then chars "\b"
  else if (n =? 12)%nat then chars "\f"
  else if ((32 <=? n) && (n <=? 126))%nat then [c]
  else chars "\u00" ++ [hex_digit (n / 16); hex_digit (n mod 16)].

Definition encode_str (s : string) : text :=
  DQ :: flat_map escape_char (chars s) ++ [DQ].

Fixpoint uint_chars (d : Decimal.uint) : text :=
  match d with
  | Decimal.Nil => []
  | Decimal.D0 d' => "0"%char :: uint_chars d'
  | Decimal.D1 d' => "1"%char :: uint_chars d'
  | Decimal.D2 d' => "2"%char :: uint_chars d'
  | Decimal.D3 d' => "3"%char :: uint_chars d'
  | Decimal.D4 d' => "4"%char :: uint_chars d'
  | Decimal.D5 d' => "5"%char :: uint_chars d'
  | Decimal.D6 d' => "6"%char :: uint_chars d'
  | Decimal.D7 d' => "7"%char :: uint_chars d'
  | Decimal.D8 d' => "8"%char :: uint_chars d'
  | Decimal.D9 d' => "9"%char :: uint_chars d'
  end.

(** [int.__repr__] *)
Definition encode_int (z : Z) : text :=
  match z with
  | Z0 => chars "0"
  | Zpos p => uint_chars (Pos.to_uint p)
  | Zneg p => "-"%char :: uint_chars (Pos.to_uint p)
  end.

Definition LF : ascii := ascii_of_nat 10.

(** Line break and indentation at nesting depth [level], two spaces each. *)
Definition newline_indent (level : nat) : text :=
  LF :: repeat " "%char (2 * level).

Fixpoint encode (level : nat) (v : pyval) {struct v} : text :=
  match v with
  | PyNone => chars "null"
  | PyInt z => encode_int z
  | PyStr s => encode_str s
  | PyList [] => chars "[]"
  | PyList (x :: xs) =>
      "["%char :: newline_indent (S level) ++ encode (S level) x
      ++ (fix items (l : list pyval) : text :=
            match l with
            | [] => []
            | y :: l' =>
                ","%char :: newline_indent (S level) ++ encode (S level) y
                ++ items l'
            end) xs
      ++ newline_indent level ++ ["]"%char]
  | PyDict [] => chars "{}"
  | PyDict ((k, x) :: kxs) =>
      "{"%char :: newline_indent (S level) ++ encode_str k ++ chars ": "
      ++ encode (S level) x
      ++ (fix members (l : list (string * pyval)) : text :=
            match l with
            | [] => []
            | (k', y) :: l' =>
                ","%char :: newline_indent (S level) ++ encode_str k'
                ++ chars ": " ++ encode (S level) y ++ members l'
            end) kxs
      ++ newline_indent level ++ ["}"%char]
  end.

Definition dumps (v : pyval) : string := string_of_list_ascii (encode 0 v).

(** *** Reading *)

Definition is_ws (c : ascii) : bool :=
  let n := nat_of_ascii c in
  ((n =? 32) || (n =? 9) || (n =? 10) || (n =? 13))%nat.

Fixpoint skip_ws (s : text) : text :=
  match s with
  | c :: s' => if is_ws c then skip_ws s' else s
  | [] => []
  end.

Definition hex_val (c : ascii) : option nat :=
  let n := nat_of_ascii c in
  if ((48 <=? n) && (n <=? 57))%nat then Some (n - 48)%nat
  else if ((97 <=? n) && (n <=? 102))%nat then Some (n - 87)%nat
  else if ((65 <=? n) && (n <=? 70))%nat then Some (n - 55)%nat
  else None.

(** The character a backslash escape stands for. *)
Definition unescape (c : ascii) : option ascii :=
  let n := nat_of_ascii c in
  if (n =? 34)%nat then Some c                         (* quote *)
  else if (n =? 92)%nat then Some c                    (* backslash *)
  else if (n =? 47)%nat then Some c                    (* slash *)
  else if (n =? 98)%nat then Some (ascii_of_nat 8)     (* escape b *)
  else if (n =? 102)%nat then Some (ascii_of_nat 12)   (* escape f *)
  else if (n =? 110)%nat then Some (ascii_of_nat 10)   (* escape n *)
  else if (n =? 114)%nat then Some (ascii_of_nat 13)   (* escape r *)
  else if (n =? 116)%nat then Some (ascii_of_nat 9)    (* escape t *)
  else None.

(** [\uXXXX]: the code point, when it is one of this model's characters. *)
Definition unescape_u (a b c d : ascii) : option ascii :=
  match hex_val a, hex_val b, hex_val c, hex_val d with
  | Some x, Some y, Some z, Some t =>
      if ((x =? 0) && (y =? 0))%nat then Some (ascii_of_nat (16 * z + t))
      else None
  | _, _, _, _ => None
  end.

(** The text after an opening quote, up to the closing one. A raw control
    character is refused. *)
Fixpoint scan_string (s : text) : option (string * text) :=
  match s with
  | [] => None
  | c :: s' =>
      if (nat_of_ascii c =? 34)%nat then Some (EmptyString, s')
      else if (nat_of_ascii c =? 92)%nat then
        match s' with
        | e :: s'' =>
            if (nat_of_ascii e =? 117)%nat then
              match s'' with
              | h1 :: h2 :: h3 :: h4 :: s3 =>
                  match unescape_u h1 h2 h3 h4, scan_string s3 with
                  | Some x, Some (str, r) => Some (String x str, r)
                  | _, _ => None
                  end
              | _ => None
              end
            else
              match unescape e, scan_string s'' with
              | Some x, Some (str, r) => Some (String x str, r)
              | _, _ => None
              end
        | [] => None
        end
      else if (nat_of_ascii c <? 32)%nat then None
      else
        match scan_string s' with
        | Some (str, r) => Some (String c str, r)
        | None => None
        end
  end.

Definition digit_of (c : ascii) : option (Decimal.uint -> Decimal.uint) :=
  match nat_of_ascii c with
  | 48%nat => Some Decimal.D0 | 49%nat => Some Decimal.D1
  | 50%nat => Some Decimal.D2 | 51%nat => Some Decimal.D3
  | 52%nat => Some Decimal.D4 | 53%nat => Some Decimal.D5
  | 54%nat => Some Decimal.D6 | 55%nat => Some Decimal.D7
  | 56%nat => Some Decimal.D8 | 57%nat => Some Decimal.D9
  | _ => None
  end.

(** The longest run of digits at the head of the text. *)
Fixpoint scan_digits (s : text) : Decimal.uint * text :=
  match s with
  | c :: s' =>
      match digit_of c with
      | Some d => let (u, r) := scan_digits s' in (d u, r)
      | None => (Decimal.Nil, s)
      end
  | [] => (Decimal.Nil, [])
  end.

(** After the integer part: a fraction or exponent mark makes the number a
    float or the text invalid; neither is a value of this model. *)
Definition ends_int (r : text) : bool :=
  match r with
  | c :: _ =>
      let n := nat_of_ascii c in
      negb ((n =? 46) || (n =? 101) || (n =? 69))%nat
  | [] => true
  end.

(** [0] or a non-zero digit followed by digits. A zero followed by a digit
    ends the number at the zero and the next digit is then refused by every
    caller. *)
Definition scan_unsigned (s : text) : option (Z * text) :=
  match scan_digits s with
  | (Decimal.Nil, _) => None
  | (Decimal.D0 Decimal.Nil, r) => if ends_int r then Some (0, r) else None
  | (Decimal.D0 _, _) => None
  | (u, r) => if ends_int r then Some (Z.of_uint u, r) else None
  end.

Definition scan_number (s : text) : option (Z * text) :=
  match s with
  | c :: s' =>
      if (nat_of_ascii c =? 45)%nat then
        match scan_unsigned s' with
        | Some (z, r) => Some (- z, r)
        | None => None
        end
      else scan_unsigned s
  | [] => None
  end.

(** [dict(pairs)] *)
Definition dict_of_pairs (pairs : list (string * pyval)) : dict :=
  fold_left (fun d kv => dict_set (fst kv) (snd kv) d) pairs [].

Definition head_is (n : nat) (s : text) : bool :=
  match s with
  | c :: _ => (nat_of_ascii c =? n)%nat
  | [] => false
  end.

(** [scan_once] with the array and object loops. [parse_items] starts at a
    value inside an array, [parse_members] just after the opening quote of a
    key. *)
Fixpoint parse_value (fuel : nat) (s : text) : option (pyval * text) :=
  match fuel with
  | O => None
  | S f =>
      match s with
      | [] => None
      | c :: s' =>
          let n := nat_of_ascii c in
          if (n =? 34)%nat then
            match scan_string s' with
            | Some (str, r) => Some (PyStr str, r)
            | None => None
            end
          else if (n =? 91)%nat then
            let s1 := skip_ws s' in
            if head_is 93 s1 then Some (PyList [], tl s1)
            else match parse_items f s1 with
                 | Some (l, r) => Some (PyList l, r)
                 | None => None
                 end
          else if (n =? 123)%nat then
            let s1 := skip_ws s' in
            if head_is 125 s1 then Some (PyDict [], tl s1)
            else if head_is 34 s1 then
              match parse_members f (tl s1) with
              | Some (l, r) => Some (PyDict (dict_of_pairs l), r)
              | None => None
              end
            else None
          else if (n =? 110)%nat then
            match s' with
            | u :: l1 :: l2 :: r =>
                if ((nat_of_ascii u =? 117) && (nat_of_ascii l1 =? 108)
                    && (nat_of_ascii l2 =? 108))%nat
                then Some (PyNone, r) else None
            | _ => None
            end
          else
            match scan_number s with
            | Some (z, r) => Some (PyInt z, r)
            | None => None
            end
      end
  end
with parse_items (fuel : nat) (s : text) : option (list pyval * text) :=
  match fuel with
  | O => None
  | S f =>
      match parse_value f s with
      | None => None
      | Some (v, r) =>
          let r1 := skip_ws r in
          if head_is 93 r1 then Some ([v], tl r1)
          else if head_is 44 r1 then
            match parse_items f (skip_ws (tl r1)) with
            | Some (l, r2) => Some (v :: l, r2)
            | None => None
            end
          else None
      end
  end
with parse_members (fuel : nat) (s : text)
    : option (list (string * pyval) * text) :=
  match fuel with
  | O => None
  | S f =>
      match scan_string s with
      | None => None
      | Some (k, r) =>
          let r1 := skip_ws r in
          if head_is 58 r1 then
            match parse_value f (skip_ws (tl r1)) with
            | None => None
            | Some (v, r2) =>
                let r3 := skip_ws r2 in
                if head_is 125 r3 then Some ([(k, v)], tl r3)
                else if head_is 44 r3 then
                  let r4 := skip_ws (tl r3) in
                  if head_is 34 r4 then
                    match parse_members f (tl r4) with
                    | Some (l, r5) => Some ((k, v) :: l, r5)
                    | None => None
                    end
                  else None
                else None
            end
          else None
      end
  end.

(** [json.loads]: one value, white space around it, nothing else. *)
Definition loads (s : string) : result pyval :=
  let t := skip_ws (chars s) in
  match parse_value (S (List.length t)) t with
  | Some (v, r) =>
      match skip_ws r with
      | [] => Ok v
      | _ => Raise ValueError        (* JSONDecodeError *)
      end
  | None => Raise ValueError
  end.

End Json.

(** ** [main] *)

Record args : Type := {
  target : string;
  ports : option string;
  output : option string;
  threads : Z
}.

Record main_run : Type := {
  main_probed : list (string * Z);
  main_written : option (string * string);  (* path and content *)
  main_returned : result unit
}.

Definition main (w : world) (a : args) : main_run :=
  match parse_ports (ports a) with
  | Raise e =>
      {| main_probed := []; main_written := None; main_returned := Raise e |}
  | Ok ports =>
      let r := scan_host w (target a) ports (threads a) in
      match returned r with
      | Raise e =>
          {| main_probed := probed r; main_written := None;
             main_returned := Raise e |}
      | Ok results =>
          match output a with
          | None | Some EmptyString =>                 (* [if args.output:] *)
              {| main_probed := probed r; main_written := None;
                 main_returned := Ok tt |}
          | Some path =>
              match write_error w path with
              | Some n =>
                  {| main_probed := probed r; main_written := None;
                     main_returned := Raise (OSError n) |}
              | None =>
                  {| main_probed := probed r;
                     main_written := Some (path, Json.dumps results);
                     main_returned := Ok tt |}
              end
          end
      end
  end.

(** ** Vocabulary of the statements *)

(** The value under ['service'] in a probe outcome, if the key is there. *)
Definition service_of (o : pyval) : option pyval :=
  match o with
  | PyDict d => dict_get "service" d
  | _ => None
  end.

(** No service name: the key is missing or holds [None]. *)
Definition has_no_service (o : pyval) : Prop :=
  service_of o = None \/ service_of o = Some PyNone.

(** A dictionary as [scan_port] returns them. *)
Definition is_probe_outcome (o : pyval) : Prop :=
  exists port status service,
    o = PyDict [("port", PyInt port); ("status", PyStr status);
                ("service", service)]
    /\ (service = PyNone \/ exists name, service = PyStr name).

(** A dictionary as [scan_host] returns them. *)
Definition is_scan_report (r : pyval) : Prop :=
  exists host scan_time open_ports closed_ports,
    r = PyDict (report_dict host scan_time open_ports closed_ports)
    /\ Forall is_probe_outcome open_ports.

(** The probe of future [f] in world [w] returned [o]. *)
Definition probe_result (w : world) (host : string) (f : Pool.future)
    (o : pyval) : Prop :=
  scan_port (net w (fst f)) host (snd f) default_timeout = Ok o.

Definition is_closed (o : pyval) : bool := negb (status_is_open o).

(** The specification's reading of an open port outside the table: the
    outcome names no service. *)
Definition unlisted_open_port_has_no_service (port : Z) : Prop :=
  forall e host timeout o,
    ~ in_catalog port ->
    scan_port e host port timeout = Ok o ->
    status_is_open o = true ->
    has_no_service o.

(** [main] stopped on the port argument: it raised and no probe ran. *)
Definition rejected_before_probing (w : world) (a : args) : Prop :=
  (exists e, main_returned (main w a) = Raise e) /\ main_probed (main w a) = [].

(** ** Vocabulary of the round trip *)
Module JsonSpec.
Import Json.

(** The tail of an array after its first element, and of an object after
    its first member, as [encode] writes them. *)
Fixpoint encode_items (level : nat) (l : list pyval) : text :=
  match l with
  | [] => []
  | y :: l' =>
      ","%char :: newline_indent level ++ encode level y
      ++ encode_items level l'
  end.

Fixpoint encode_members (level : nat) (l : list (string * pyval)) : text :=
  match l with
  | [] => []
  | (k, y) :: l' =>
      ","%char :: newline_indent level ++ encode_str k ++ chars ": "
      ++ encode level y ++ encode_members level l'
  end.

(** Number of parser calls a value takes. *)
Fixpoint size (v : pyval) : nat :=
  match v with
  | PyList l => S (fold_right (fun x n => S (size x + n)) 0 l)
  | PyDict d => S (fold_right (fun kv n => S (size (snd kv) + n)) 0 d)
  | _ => 1
  end%nat.

Definition size_items (l : list pyval) : nat :=
  fold_right (fun x n => S (size x + n))%nat 0%nat l.

Definition size_members (d : list (string * pyval)) : nat :=
  fold_right (fun kv n => S (size (snd kv) + n))%nat 0%nat d.

(** Every dictionary inside the value has distinct keys, as every Python
    dictionary has. *)
Fixpoint wf (v : pyval) : Prop :=
  match v with
  | PyList l => fold_right (fun x P => wf x /\ P) True l
  | PyDict d =>
      NoDup (map fst d) /\ fold_right (fun kv P => wf (snd kv) /\ P) True d
  | _ => True
  end.

Definition wf_items (l : list pyval) : Prop :=
  fold_right (fun x P => wf x /\ P) True l.

Definition wf_members (d : list (string * pyval)) : Prop :=
  fold_right (fun kv P => wf (snd kv) /\ P) True d.

(** First character of an encoded value. *)
Definition starts_value (c : ascii) : bool :=
  let n := nat_of_ascii c in
  ((n =? 34) || (n =? 91) || (n =? 123) || (n =? 110) || (n =? 45)
   || ((48 <=? n) && (n <=? 57)))%nat.

(** What may follow a value: the end of the text, or a character that
    cannot continue a number. *)
Definition ends_value (r : text) : bool :=
  match r with
  | [] => true
  | c :: _ =>
      let n := nat_of_ascii c in
      negb (((48 <=? n) && (n <=? 57)) || (n =? 46) || (n =? 101)
            || (n =? 69))%nat
  end.

End JsonSpec.

(** ** Further vocabulary *)

(** What the probe of future [f] returned, when it returned. *)
Definition outcome_of (w : world) (host : string) (f : Pool.future) : pyval :=
  match scan_port (net w (fst f)) host (snd f) default_timeout with
  | Ok o => o
  | Raise _ => PyNone
  end.

(** The futures [scan_host] submits: index in the list and port. *)
Definition futures_of (ports : list Z) : list Pool.future :=
  combine (seq 0 (length ports)) ports.

Definition in_port_range (port : Z) : Prop := 0 <= port <= 65535.

(** A timeout between 0 and 2147483 seconds: one the socket accepts on
    every platform, also where the wait is counted in milliseconds in a C
    int. *)
Definition timeout_in_bounds (t : Q) : bool :=
  Qle_bool 0 t && Qle_bool t (inject_Z 2147483).

(** The host name converts to a C string for every probe of the scan. *)
Definition host_converts_everywhere (w : world) (host : string) : Prop :=
  forall i, Socket.host_converts (net w i) host = true.

(** [str(z)], the decimal numeral of [z], and [sep.join(parts)]. [str]
    returns the numeral when it is within the limit on digits. *)
Definition py_str_of_int (z : Z) : string :=
  string_of_list_ascii (Json.encode_int z).

Definition within_digit_limit (z : Z) : Prop :=
  Z.of_nat (String.length (py_str_of_int z)) <= Str.max_str_digits.

Fixpoint py_join (sep : string) (parts : list string) : string :=
  match parts with
  | [] => EmptyString
  | [p] => p
  | p :: rest => (p ++ sep ++ py_join sep rest)%string
  end.

(** A port argument written from numbers: a comma list, and a range. *)
Definition list_text (zs : list Z) : string :=
  py_join "," (map py_str_of_int zs).

Definition range_text (x y : Z) : string :=
  (py_str_of_int x ++ "-" ++ py_str_of_int y)%string.

(** Printable ASCII or a line feed. *)
Definition is_plain_ascii (c : ascii) : bool :=
  let n := nat_of_ascii c in
  (((32 <=? n) && (n <=? 126)) || (n =? 10))%nat.

(** ** The password analyzer, [scripts/password_analyzer.py]

    The regular expressions of the script are written out as the string
    functions they denote under [re.search]: [.] stands for any character
    but a line feed, [\d] for a decimal digit, and [$] holds at the end of
    the text or before a line feed that ends it. *)
Module Password.

Definition ESC : ascii := ascii_of_nat 27.
Definition GREEN : string := String ESC "[92m".
Definition YELLOW : string := String ESC "[93m".
Definition RED : string := String ESC "[91m".
Definition END : string := String ESC "[0m".

Definition COMMON_PASSWORDS : list string :=
  [ "password"; "123456"; "12345678"; "qwerty"; "abc123";
    "monkey"; "1234567"; "letmein"; "trustno1"; "dragon";
    "baseball"; "iloveyou"; "master"; "sunshine"; "ashley";
    "football"; "shadow"; "passw0rd"; "admin"; "welcome" ].

Definition is_upper (c : ascii) : bool :=
  let n := nat_of_ascii c in ((65 <=? n) && (n <=? 90))%nat.

Definition is_lower (c : ascii) : bool :=
  let n := nat_of_ascii c in ((97 <=? n) && (n <=? 122))%nat.

Definition is_letter (c : ascii) : bool := is_lower c || is_upper c.

(** The class of special characters of [check_complexity]: the listed
    punctuation marks, the double quote among them. *)
Definition special_chars : list ascii :=
  Json.chars "!@#$%^&*(),.?" ++ [Json.DQ] ++ Json.chars ":{}|<>".

Definition is_special (c : ascii) : bool :=
  existsb (Ascii.eqb c) special_chars.

(** [c.lower()]: the ASCII capitals and the Latin-1 capitals U+00C0 ..
    U+00DE, the multiplication sign U+00D7 apart, move up by 32. *)
Definition lower_char (c : ascii) : ascii :=
  let n := nat_of_ascii c in
  if (((65 <=? n) && (n <=? 90))
      || ((192 <=? n) && (n <=? 222) && negb (n =? 215)))%nat
  then ascii_of_nat (n + 32)
  else c.

Definition lower (s : list ascii) : list ascii := map lower_char s.

(** [re.search(r'[...]', s)] for a one-character class. *)
Definition search_class (cls : ascii -> bool) (s : list ascii) : bool :=
  existsb cls s.

(** [re.search(r'(.)\1{2,}', s)]: a character other than a line feed, three
    times in a row. *)
Fixpoint search_repeated (s : list ascii) : bool :=
  match s with
  | a :: ((b :: c :: _) as t) =>
      (Ascii.eqb a b && Ascii.eqb b c && negb (Ascii.eqb a Json.LF))
      || search_repeated t
  | _ => false
  end.

Fixpoint starts_with (p s : list ascii) : bool :=
  match p, s with
  | [], _ => true
  | x :: p', y :: s' => Ascii.eqb x y && starts_with p' s'
  | _ :: _, [] => false
  end.

Fixpoint search_literal (p s : list ascii) : bool :=
  starts_with p s
  || match s with
     | [] => false
     | _ :: s' => search_literal p s'
     end.

(** [re.search(r'(p1|p2|...)', s)] for literal alternatives. *)
Definition search_any (alternatives : list string) (s : list ascii) : bool :=
  existsb (fun p => search_literal (Json.chars p) s) alternatives.

(** [cls*$]: characters of the class up to the end, or up to a line feed
    that is the last character. *)
Fixpoint class_to_end (cls : ascii -> bool) (s : list ascii) : bool :=
  match s with
  | [] => true
  | c :: [] => cls c || Ascii.eqb c Json.LF
  | c :: s' => cls c && class_to_end cls s'
  end.

(** [re.search(r'^cls+$', s)] *)
Definition search_only (cls : ascii -> bool) (s : list ascii) : bool :=
  match s with
  | [] => false
  | c :: s' => cls c && class_to_end cls s'
  end.

Record complexity : Type := {
  uppercase : bool;
  lowercase : bool;
  numbers : bool;
  special : bool
}.

Definition check_complexity (password : string) : complexity :=
  let s := Json.chars password in
  {| uppercase := search_class is_upper s;
     lowercase := search_class is_lower s;
     numbers := search_class Str.is_digit s;
     special := search_class is_special s |}.

Definition check_common (password : string) : bool :=
  existsb (String.eqb (string_of_list_ascii (lower (Json.chars password))))
          COMMON_PASSWORDS.

Definition check_patterns (password : string) : list string :=
  let s := Json.chars password in
  (if search_repeated s then ["Contains repeated characters"] else [])
  ++ (if search_any ["012"; "123"; "234"; "345"; "456"; "567"; "678"; "789"] s
      then ["Contains sequential numbers"] else [])
  ++ (if search_any ["abc"; "bcd"; "cde"; "def"; "efg"] (lower s)
      then ["Contains sequential letters"] else [])
  ++ (if search_only is_letter s then ["Contains only letters"] else [])
  ++ (if search_only Str.is_digit s then ["Contains only numbers"] else []).

(** [sum(10 for v in complexity.values() if v)] *)
Definition complexity_score (c : complexity) : Z :=
  (if uppercase c then 10 else 0) + (if lowercase c then 10 else 0)
  + (if numbers c then 10 else 0) + (if special c then 10 else 0).

Definition calculate_score (password : string) : Z :=
  let score := 0 in
  let score := score + Z.min (Z.of_nat (String.length password) * 3) 40 in
  let score := score + complexity_score (check_complexity password) in
  let score := score - Z.of_nat (length (check_patterns password)) * 5 in
  let score := if check_common password then score - 30 else score in
  Z.max 0 (Z.min 100 score).

Definition STRONG : string := (GREEN ++ "STRONG" ++ END)%string.
Definition GOOD : string := (GREEN ++ "GOOD" ++ END)%string.
Definition MODERATE : string := (YELLOW ++ "MODERATE" ++ END)%string.
Definition WEAK : string := (RED ++ "WEAK" ++ END)%string.

Record analysis : Type := {
  password_length : Z;
  score : Z;
  strength : string;
  complexity_of : complexity;
  is_common : bool;
  warnings : list string;
  hashes : list (string * string)
}.

Section Hashes.
(** [hashlib.md5(b).hexdigest()] and [hashlib.sha256(b).hexdigest()] of the
    encoded password. *)
Variables md5_hex sha256_hex : string -> string.

Definition get_hash (password : string) : list (string * string) :=
  [("MD5", md5_hex password); ("SHA-256", sha256_hex password)].

Definition analyze_password (password : string) : analysis :=
  let score := calculate_score password in
  let strength :=
    if 80 <=? score then STRONG
    else if 60 <=? score then GOOD
    else if 40 <=? score then MODERATE
    else WEAK in
  {| password_length := Z.of_nat (String.length password);
     score := score;
     strength := strength;
     complexity_of := check_complexity password;
     is_common := check_common password;
     warnings := check_patterns password;
     hashes := get_hash password |}.

End Hashes.

(** The score before [calculate_score] clamps it to 0..100. *)
Definition raw_score (password : string) : Z :=
  Z.min (Z.of_nat (String.length password) * 3) 40
  + complexity_score (check_complexity password)
  - Z.of_nat (length (check_patterns password)) * 5
  - (if check_common password then 30 else 0).

(** All four character classes are present. *)
Definition fully_complex (password : string) : Prop :=
  uppercase (check_complexity password) = true
  /\ lowercase (check_complexity password) = true
  /\ numbers (check_complexity password) = true
  /\ special (check_complexity password) = true.

End Password.

(** ** A concrete machine

    A host that resolves, listeners on ports 8080 and 9000, every other
    connection refused (errno 111). *)
Definition loopback : Socket.env :=
  {| Socket.create_error := None;
     Socket.idna_encodes := fun _ => true;
     Socket.host_resolves := fun h => String.eqb h "127.0.0.1";
     Socket.connect_errno :=
       fun _ port => if (port =? 8080) || (port =? 9000) then 0 else 111 |}.

Definition example_world : world :=
  {| now := "2024-05-01T12:00:00.000000";
     net := fun _ => loopback;
     sched := [Pool.Submit false; Pool.Start; Pool.Submit false;
               Pool.Submit true; Pool.Start; Pool.Finish 1; Pool.Start;
               Pool.Finish 1];
     write_error := fun _ => None |}.

(** The report of scanning ports 8080, 9999 and 9000 in that world. *)
Definition example_report : pyval :=
  PyDict (report_dict "127.0.0.1" "2024-05-01T12:00:00.000000"
            [open_outcome 9000 "Unknown"; open_outcome 8080 "HTTP-Proxy"] 1).

Definition example_args (spec : option string) : args :=
  {| target := "127.0.0.1"; ports := spec; output := Some "scan.json";
     threads := 50 |}.

(** * Properties *)

(** ** The thread pool *)

Module PoolFacts.
Import Pool.

Section WithBound.
Variable N : nat.

Lemma remove_nth_length {A} k (l : list A) x :
  nth_error l k = Some x -> length l = S (length (remove_nth k l)).
Proof.
  revert l. induction k as [|k IH]; intros [|y l]; simpl; try discriminate.
  - reflexivity.
  - intros H. f_equal. now apply IH.
Qed.

Lemma remove_nth_perm {A} k (l : list A) x :
  nth_error l k = Some x -> Permutation l (x :: remove_nth k l).
Proof.
  revert l. induction k as [|k IH]; intros [|y l]; simpl; try discriminate.
  - intros [= ->]. reflexivity.
  - intros H. rewrite perm_swap. constructor. now apply IH.
Qed.

Lemma inv_init ports : inv N (init ports).
Proof. unfold inv, init; simpl. repeat split; try lia. congruence. Qed.

Lemma inv_step ev s : inv N s -> inv N (step N ev s).
Proof.
  intros (Hr & Hw & Hq). destruct ev as [b| |k]; unfold step.
  - destruct (todo s) as [|f rest]; [repeat split; auto|].
    unfold inv; simpl.
    destruct (Nat.ltb_spec (workers s) N);
      destruct (Nat.eqb_spec (workers s) 0); destruct b; simpl;
      (split; [|split]; intros; lia).
  - destruct (queue s) as [|f rest] eqn:Eq; [repeat split; auto; congruence|].
    destruct (length (running s) <? workers s)%nat eqn:E.
    + apply Nat.ltb_lt in E. unfold inv; simpl. rewrite length_app; simpl.
      split; [|split]; intros; lia.
    + repeat split; auto. rewrite Eq. auto.
  - destruct (nth_error (running s) k) as [f|] eqn:E; [|repeat split; auto].
    apply remove_nth_length in E. unfold inv; simpl.
    repeat split; auto; lia.
Qed.

Lemma inv_run sched s : inv N s -> inv N (run N sched s).
Proof.
  unfold run. revert s. induction sched as [|ev sched IH]; simpl; auto.
  intros s H. apply IH, inv_step, H.
Qed.

Lemma run_app sched1 sched2 s :
  run N (sched1 ++ sched2) s = run N sched2 (run N sched1 s).
Proof. unfold run. apply fold_left_app. Qed.

Lemma perm_move {A} (f : A) l1 l2 l3 :
  Permutation (l1 ++ (l2 ++ [f]) ++ l3) (f :: l1 ++ l2 ++ l3).
Proof.
  symmetry.
  replace (l1 ++ (l2 ++ [f]) ++ l3) with ((l1 ++ l2) ++ f :: l3)
    by (rewrite <- !app_assoc; reflexivity).
  apply Permutation_cons_app. now rewrite <- app_assoc.
Qed.

Lemma everything_step ev s :
  Permutation (everything (step N ev s)) (everything s).
Proof.
  unfold everything. destruct ev as [b| |k]; unfold step.
  - destruct (todo s) as [|f rest] eqn:E; simpl; [now rewrite E|].
    apply perm_move.
  - destruct (queue s) as [|f rest] eqn:E; [now rewrite E|].
    destruct (length (running s) <? workers s)%nat; simpl;
      [|now rewrite E].
    apply Permutation_app_head, perm_move.
  - destruct (nth_error (running s) k) as [f|] eqn:E; simpl; [|reflexivity].
    do 2 apply Permutation_app_head.
    transitivity ((f :: remove_nth k (running s)) ++ done s).
    + simpl. rewrite app_assoc. symmetry. apply Permutation_cons_append.
    + apply Permutation_app_tail. symmetry. now apply remove_nth_perm.
Qed.

Lemma everything_run sched s :
  Permutation (everything (run N sched s)) (everything s).
Proof.
  unfold run. revert s. induction sched as [|ev sched IH]; simpl; intros s.
  - reflexivity.
  - rewrite IH. apply everything_step.
Qed.

(** A trace ends in the state [run] computes, and the invariant holds all
    along it. *)
Lemma last_state_trace sched s : last_state (trace N sched s) = run N sched s.
Proof.
  unfold last_state, run. revert s.
  induction sched as [|ev rest IH]; intros s; [reflexivity|].
  cbn [trace fold_left]. rewrite <- IH.
  destruct rest; reflexivity.
Qed.

Lemma inv_trace sched s : inv N s -> Forall (inv N) (trace N sched s).
Proof.
  revert s. induction sched as [|ev rest IH]; intros s H; cbn [trace].
  - constructor; [exact H | constructor].
  - constructor; [exact H |]. apply IH, inv_step, H.
Qed.

Lemma trace_head sched s : hd_error (trace N sched s) = Some s.
Proof. destruct sched; reflexivity. Qed.

End WithBound.
End PoolFacts.

Module DrainFacts.
Import Pool PoolFacts.

Section WithBound.
Variable N : nat.

Lemma run_cons ev sched s :
  run N (ev :: sched) s = run N sched (step N ev s).
Proof. reflexivity. Qed.

Lemma run_nil s : run N [] s = s.
Proof. reflexivity. Qed.

Lemma run_submits s :
  let s' := run N (repeat (Submit false) (length (todo s))) s in
  todo s' = [] /\ queue s' = queue s ++ todo s
  /\ running s' = running s /\ done s' = done s.
Proof.
  remember (length (todo s)) as n eqn:Hn. revert s Hn.
  induction n as [|n IH]; intros s Hn; cbv zeta in *; simpl repeat.
  - rewrite run_nil. destruct (todo s) eqn:E; [|discriminate].
    rewrite ?app_nil_r. auto.
  - rewrite run_cons.
    destruct (todo s) as [|f rest] eqn:E; [discriminate|].
    injection Hn as Hn.
    set (s1 := step N (Submit false) s).
    assert (H1 : todo s1 = rest /\ queue s1 = queue s ++ [f]
                 /\ running s1 = running s /\ done s1 = done s).
    { unfold s1, step. rewrite E. simpl. auto. }
    destruct H1 as (Ht & Hq & Hr & Hd).
    specialize (IH s1). rewrite Ht in IH. specialize (IH Hn).
    destruct IH as (-> & -> & -> & ->). rewrite Hq, Hr, Hd, <- app_assoc.
    auto.
Qed.

Lemma run_finishes s :
  let s' := run N (repeat (Finish 0) (length (running s))) s in
  todo s' = todo s /\ queue s' = queue s /\ workers s' = workers s
  /\ running s' = [] /\ done s' = done s ++ running s.
Proof.
  remember (length (running s)) as n eqn:Hn. revert s Hn.
  induction n as [|n IH]; intros s Hn; cbv zeta in *; simpl repeat.
  - rewrite run_nil. destruct (running s) eqn:E; [|discriminate].
    rewrite ?app_nil_r. auto.
  - rewrite run_cons.
    destruct (running s) as [|f rest] eqn:E; [discriminate|].
    injection Hn as Hn.
    set (s1 := step N (Finish 0) s).
    assert (H1 : todo s1 = todo s /\ queue s1 = queue s
                 /\ workers s1 = workers s
                 /\ running s1 = rest /\ done s1 = done s ++ [f]).
    { unfold s1, step. rewrite E. simpl. auto. }
    destruct H1 as (Ht & Hq & Hw & Hr & Hd).
    specialize (IH s1). rewrite Hr in IH. specialize (IH Hn).
    destruct IH as (-> & -> & -> & -> & ->).
    rewrite Ht, Hq, Hw, Hd, <- app_assoc. auto.
Qed.

Lemma start_finish_step s f rest :
  queue s = f :: rest -> running s = [] -> (1 <= workers s)%nat ->
  step N (Finish 0) (step N Start s)
  = {| todo := todo s; queue := rest; workers := workers s;
       running := []; done := done s ++ [f] |}.
Proof.
  destruct s as [t q wk r d]; simpl. intros -> -> Hw. unfold step; simpl.
  destruct wk as [|k]; [lia|]. reflexivity.
Qed.

Lemma run_start_finish s :
  running s = [] -> (queue s <> [] -> (1 <= workers s)%nat) ->
  let s' := run N (concat (repeat [Start; Finish 0%nat] (length (queue s)))) s in
  todo s' = todo s /\ queue s' = [] /\ running s' = []
  /\ done s' = done s ++ queue s.
Proof.
  remember (length (queue s)) as n eqn:Hn. revert s Hn.
  induction n as [|n IH]; intros s Hn Hrun Hw; cbv zeta in *;
    simpl repeat; simpl concat.
  - rewrite run_nil. destruct (queue s) eqn:E; [|discriminate].
    rewrite ?app_nil_r. auto.
  - rewrite !run_cons.
    destruct (queue s) as [|f rest] eqn:E; [discriminate|].
    injection Hn as Hn.
    set (s1 := step N (Finish 0) (step N Start s)).
    assert (H1 : todo s1 = todo s /\ queue s1 = rest
                 /\ workers s1 = workers s
                 /\ running s1 = [] /\ done s1 = done s ++ [f]).
    { unfold s1. rewrite (start_finish_step s f rest E Hrun).
      - simpl. auto.
      - apply Hw. discriminate. }
    destruct H1 as (Ht & Hq & Hw1 & Hr & Hd).
    specialize (IH s1). rewrite Hq in IH. specialize (IH Hn Hr).
    destruct IH as (-> & -> & -> & ->).
    + intros _. rewrite Hw1. apply Hw. discriminate.
    + rewrite Ht, Hd, <- app_assoc. auto.
Qed.

(** Whatever the schedule did, the rest of the work gets done. *)
Lemma drain_done s :
  (1 <= N)%nat -> inv N s ->
  let s' := run N (drain s) s in
  todo s' = [] /\ queue s' = [] /\ running s' = [].
Proof.
  intros HN Hinv. cbv zeta. unfold drain. rewrite !run_app.
  destruct (run_submits s) as (Ht1 & Hq1 & Hr1 & Hd1).
  set (s1 := run N (repeat (Submit false) (length (todo s))) s) in *.
  assert (Hinv1 : inv N s1) by (apply inv_run, Hinv).
  rewrite <- Hr1.
  destruct (run_finishes s1) as (Ht2 & Hq2 & Hw2 & Hr2 & Hd2).
  set (s2 := run N (repeat (Finish 0%nat) (length (running s1))) s1) in *.
  assert (Hinv2 : inv N s2) by (apply inv_run, Hinv1).
  replace (length (queue s) + length (todo s))%nat with (length (queue s2))
    by (rewrite Hq2, Hq1, length_app; reflexivity).
  destruct (run_start_finish s2 Hr2) as (Ht3 & Hq3 & Hr3 & Hd3).
  - destruct Hinv2 as (_ & _ & H). auto.
  - rewrite Ht3, Ht2, Ht1. auto.
Qed.

Lemma run_to_end_idle sched ports :
  (1 <= N)%nat -> idle (run_to_end N sched ports) = true.
Proof.
  intros HN. unfold run_to_end, full_schedule. rewrite run_app.
  destruct (drain_done (run N sched (init ports)) HN) as (H1 & H2 & H3).
  - apply inv_run, inv_init.
  - unfold idle. now rewrite H1, H2, H3.
Qed.

(** The completion order is a rearrangement of the submitted futures. *)
Lemma run_to_end_done sched ports :
  (1 <= N)%nat ->
  Permutation (done (run_to_end N sched ports))
              (combine (seq 0 (length ports)) ports).
Proof.
  intros HN. pose proof (run_to_end_idle sched ports HN) as Hidle.
  pose proof (everything_run N (full_schedule N sched ports) (init ports))
    as Hperm.
  fold (run_to_end N sched ports) in Hperm.
  unfold everything in Hperm. unfold idle in Hidle.
  destruct (todo (run_to_end N sched ports)); [|discriminate].
  destruct (queue (run_to_end N sched ports)); [|discriminate].
  destruct (running (run_to_end N sched ports)); [|discriminate].
  simpl in Hperm. now rewrite app_nil_r in Hperm.
Qed.

Lemma combine_seq_snd {A} (l : list A) k :
  map snd (combine (seq k (length l)) l) = l.
Proof.
  revert k. induction l as [|x l IH]; intros k; simpl; [reflexivity|].
  now rewrite IH.
Qed.

Lemma run_to_end_ports sched ports :
  (1 <= N)%nat ->
  Permutation (map snd (done (run_to_end N sched ports))) ports.
Proof.
  intros HN. rewrite (run_to_end_done sched ports HN).
  now rewrite combine_seq_snd.
Qed.

End WithBound.
End DrainFacts.

(** ** [scan_port] *)

Lemma scan_port_shape e host port timeout o :
  scan_port e host port timeout = Ok o ->
  o = open_outcome port (COMMON_PORTS_get port "Unknown")
  \/ o = closed_outcome port.
Proof.
  unfold scan_port. destruct (scan_port_try e host port timeout) as [r|ex].
  - destruct (r =? 0); intros [= <-]; auto.
  - destruct (is_socket_error ex); [intros [= <-]; auto | discriminate].
Qed.

Lemma table_find_absent port t :
  ~ In port (map fst t) -> table_find port t = None.
Proof.
  induction t as [|[p s] t IH]; simpl; [reflexivity|].
  intros H. destruct (Z.eqb_spec port p) as [->|_]; [tauto|].
  apply IH. tauto.
Qed.

Lemma connect_ex_in_range e host port :
  0 <= port <= 65535 -> Socket.host_converts e host = true ->
  Socket.connect_ex e host port
  = if Socket.host_resolves e host
    then Ok (Socket.connect_errno e host port)
    else Raise Gaierror.
Proof.
  intros Hp Hh. unfold Socket.connect_ex, Socket.c_int_min, Socket.c_int_max.
  rewrite Hh. cbn [negb].
  destruct (Z.leb_spec (- 2 ^ 31) port); [|lia].
  destruct (Z.leb_spec port (2 ^ 31 - 1)); [|lia].
  destruct (Z.leb_spec 0 port); [|lia].
  destruct (Z.leb_spec port 65535); [|lia].
  simpl. now destruct (Socket.host_resolves e host).
Qed.

(** Inside the port range, with a timeout the socket accepts and a host
    name it can convert, the probe returns a dictionary whatever the network
    does. *)
Lemma scan_port_in_range_returns e host port timeout :
  0 <= port <= 65535 -> Socket.settimeout timeout = Ok tt ->
  Socket.host_converts e host = true ->
  scan_port e host port timeout
  = Ok (open_outcome port (COMMON_PORTS_get port "Unknown"))
  \/ scan_port e host port timeout = Ok (closed_outcome port).
Proof.
  intros Hp Ht Hh. unfold scan_port, scan_port_try, Socket.socket_socket.
  rewrite Ht, (connect_ex_in_range _ _ _ Hp Hh).
  destruct (Socket.create_error e); simpl; auto.
  destruct (Socket.host_resolves e host); simpl; auto.
  destruct (Socket.connect_errno e host port =? 0); auto.
Qed.

(** Errors of the socket layer proper are folded into a closed outcome:
    no socket, an unresolved host, a refused or timed-out connection. *)
Lemma scan_port_folds_socket_errors e host port timeout :
  0 <= port <= 65535 -> Socket.settimeout timeout = Ok tt ->
  Socket.host_converts e host = true ->
  (Socket.create_error e <> None
   \/ Socket.host_resolves e host = false
   \/ Socket.connect_errno e host port <> 0) ->
  scan_port e host port timeout = Ok (closed_outcome port).
Proof.
  intros Hp Ht Hh H. unfold scan_port, scan_port_try, Socket.socket_socket.
  rewrite Ht, (connect_ex_in_range _ _ _ Hp Hh).
  destruct (Socket.create_error e) as [n|]; simpl; auto.
  destruct (Socket.host_resolves e host); simpl; auto.
  destruct (Z.eqb_spec (Socket.connect_errno e host port) 0) as [E|]; auto.
  destruct H as [H|[H|H]]; congruence.
Qed.

(** C2. The specification has [scan_port] never raise, an out-of-range
    port being one more closed port. On a host that resolves, the probe of
    port 70000 leaves [scan_port] with the [OverflowError] of [connect_ex],
    which [except socket.error] does not catch; [scan_host] and [main] pass
    it on. *)
Theorem scan_port_out_of_range_raises :
  scan_port loopback "127.0.0.1" 70000 default_timeout = Raise OverflowError
  /\ returned (scan_host example_world "127.0.0.1" (Some [70000]) 50)
     = Raise OverflowError
  /\ main_returned (main example_world (example_args (Some "70000")))
     = Raise OverflowError.
Proof. repeat split; vm_compute; reflexivity. Qed.

Lemma not_in_catalog_9000 : ~ in_catalog 9000.
Proof.
  unfold in_catalog. simpl. intros H.
  repeat (destruct H as [H|H]; [discriminate|]). exact H.
Qed.

(** C3, as stated, fails: port 9000 is not in [COMMON_PORTS], and its open
    outcome carries the service name ['Unknown']. *)
Lemma unlisted_open_port_has_no_service_fails :
  ~ unlisted_open_port_has_no_service 9000.
Proof.
  intros H.
  specialize (H loopback "127.0.0.1" default_timeout
                (open_outcome 9000 "Unknown") not_in_catalog_9000
                eq_refl eq_refl).
  destruct H as [H|H]; discriminate H.
Qed.

(** C3, amended. For every port that is not a key of [COMMON_PORTS], an
    open outcome for that port holds the placeholder string ['Unknown']
    under ['service']. *)
Theorem unlisted_open_port_service_unknown e host port timeout o :
  ~ in_catalog port ->
  scan_port e host port timeout = Ok o ->
  status_is_open o = true ->
  service_of o = Some (PyStr "Unknown").
Proof.
  intros Hcat Hscan Hopen.
  destruct (scan_port_shape _ _ _ _ _ Hscan) as [-> | ->].
  - unfold COMMON_PORTS_get. rewrite table_find_absent by exact Hcat.
    reflexivity.
  - discriminate Hopen.
Qed.

Lemma unlisted_open_port_service_unknown_witness :
  service_of (open_outcome 9000 "Unknown") = Some (PyStr "Unknown").
Proof.
  apply (unlisted_open_port_service_unknown loopback "127.0.0.1" 9000
           default_timeout).
  - exact not_in_catalog_9000.
  - reflexivity.
  - reflexivity.
Defined.

(** C10. Every outcome [scan_port] returns is a dictionary with exactly the
    keys ['port'], ['status'], ['service'], in that order; the port is the
    one probed; a closed outcome has the key ['service'] present, holding
    [None]. *)
Theorem scan_port_outcome_fields e host port timeout o :
  scan_port e host port timeout = Ok o ->
  exists d,
    o = PyDict d
    /\ dict_keys d = ["port"; "status"; "service"]
    /\ dict_get "port" d = Some (PyInt port)
    /\ (dict_get "status" d = Some (PyStr "open")
        \/ dict_get "status" d = Some (PyStr "closed"))
    /\ (status_is_open o = false -> dict_get "service" d = Some PyNone).
Proof.
  intros Hscan.
  destruct (scan_port_shape _ _ _ _ _ Hscan) as [-> | ->];
    eexists; (split; [reflexivity|]); simpl; repeat split; auto.
  discriminate.
Qed.

Lemma scan_port_outcome_fields_witness :
  exists d,
    closed_outcome 9999 = PyDict d
    /\ dict_keys d = ["port"; "status"; "service"]
    /\ dict_get "port" d = Some (PyInt 9999)
    /\ (dict_get "status" d = Some (PyStr "open")
        \/ dict_get "status" d = Some (PyStr "closed"))
    /\ (status_is_open (closed_outcome 9999) = false ->
        dict_get "service" d = Some PyNone).
Proof.
  apply (scan_port_outcome_fields loopback "127.0.0.1" 9999 default_timeout).
  reflexivity.
Defined.

(** ** [scan_host] *)

Lemma collect_open h t opens closed o :
  status_is_open o = true ->
  collect (report_dict h t opens closed) o
  = report_dict h t (opens ++ [o]) closed.
Proof. intros H. unfold collect. rewrite H. reflexivity. Qed.

Lemma collect_closed h t opens closed o :
  status_is_open o = false ->
  collect (report_dict h t opens closed) o
  = report_dict h t opens (closed + 1).
Proof. intros H. unfold collect. rewrite H. reflexivity. Qed.

(** The loop keeps the shape of [results]; each outcome goes to exactly
    one side. *)
Lemma collect_all_spec w host completed :
  forall h t opens closed r,
    collect_all w host completed (report_dict h t opens closed) = Ok r ->
    exists outcomes,
      Forall2 (probe_result w host) completed outcomes
      /\ r = report_dict h t
               (opens ++ filter status_is_open outcomes)
               (closed + Z.of_nat (length (filter is_closed outcomes))).
Proof.
  induction completed as [|[i port] rest IH]; simpl; intros h t opens closed r.
  - intros [= <-]. exists []. split; [constructor|].
    simpl. now rewrite app_nil_r, Z.add_0_r.
  - destruct (scan_port (net w i) host port default_timeout) as [o|ex] eqn:E;
      simpl; [|discriminate].
    destruct (status_is_open o) eqn:Eo.
    + rewrite (collect_open _ _ _ _ _ Eo). intros H.
      destruct (IH _ _ _ _ _ H) as (outs & HF & ->).
      exists (o :: outs). split; [constructor; auto|].
      simpl. unfold is_closed at 2. rewrite Eo. simpl.
      now rewrite <- app_assoc.
    + rewrite (collect_closed _ _ _ _ _ Eo). intros H.
      destruct (IH _ _ _ _ _ H) as (outs & HF & ->).
      exists (o :: outs). split; [constructor; auto|].
      simpl filter. unfold is_closed at 2. rewrite Eo.
      simpl negb. cbv iota. rewrite length_cons. f_equal. lia.
Qed.

Lemma filter_split_length {A} (p : A -> bool) (l : list A) :
  (length (filter (fun x => negb (p x)) l) + length (filter p l))%nat
  = length l.
Proof.
  induction l as [|x l IH]; simpl; [reflexivity|].
  destruct (p x); simpl; lia.
Qed.

Lemma scan_host_positive w host ports threads :
  0 < threads ->
  scan_host w host ports threads
  = let final := Pool.run_to_end (Z.to_nat threads) (sched w)
                   (ports_or_default ports) in
    {| probed := map (fun f => (host, snd f)) (Pool.done final);
       returned := r <- collect_all w host (Pool.done final)
                          (new_results host (now w)) ;;
                   Ok (PyDict r) |}.
Proof.
  intros H. unfold scan_host, scan_pool, Pool.executor.
  destruct (Z.leb_spec threads 0); [lia|]. cbn [bind].
  rewrite PoolFacts.last_state_trace. reflexivity.
Qed.

Lemma scan_host_returned_positive w host ports threads report :
  returned (scan_host w host ports threads) = Ok report -> 0 < threads.
Proof.
  unfold scan_host, scan_pool, Pool.executor.
  destruct (Z.leb_spec threads 0); [discriminate|auto].
Qed.

Lemma scan_report_accounts_for_every_port_aux w host ports threads report :
  returned (scan_host w host ports threads) = Ok report ->
  exists completed outcomes,
    Forall2 (probe_result w host) completed outcomes
    /\ report = PyDict (report_dict host (now w)
                          (filter status_is_open outcomes)
                          (Z.of_nat (length (filter is_closed outcomes)))).
Proof.
  intros Hret.
  pose proof (scan_host_returned_positive _ _ _ _ _ Hret) as Hpos.
  rewrite (scan_host_positive _ _ _ _ Hpos) in Hret. cbv zeta in Hret.
  simpl in Hret.
  match type of Hret with context [collect_all w host ?c ?r] =>
    destruct (collect_all w host c r) as [r'|] eqn:E; [|discriminate];
    exists c end.
  injection Hret as <-.
  apply collect_all_spec in E. destruct E as (outcomes & HF & ->).
  exists outcomes. split; [exact HF | reflexivity].
Qed.

(** C1. When a scan completes, its report has
    [closed_ports + len(open_ports) = len(ports)]: the probes that ran are
    a rearrangement of the requested ports, each returned one outcome, the
    open ones are listed in completion order and the others counted. *)
Theorem scan_report_accounts_for_every_port w host ports threads report :
  returned (scan_host w host ports threads) = Ok report ->
  exists completed outcomes d opens closed,
    Permutation (map snd completed) (ports_or_default ports)
    /\ Forall2 (probe_result w host) completed outcomes
    /\ report = PyDict d
    /\ dict_get "open_ports" d = Some (PyList opens)
    /\ dict_get "closed_ports" d = Some (PyInt closed)
    /\ opens = filter status_is_open outcomes
    /\ closed = Z.of_nat (length (filter is_closed outcomes))
    /\ closed + Z.of_nat (length opens)
       = Z.of_nat (length (ports_or_default ports)).
Proof.
  intros Hret.
  pose proof (scan_host_returned_positive _ _ _ _ _ Hret) as Hpos.
  rewrite (scan_host_positive _ _ _ _ Hpos) in Hret. cbv zeta in Hret.
  simpl in Hret.
  set (completed := Pool.done (Pool.run_to_end (Z.to_nat threads) (sched w)
                                 (ports_or_default ports))) in *.
  destruct (collect_all w host completed (new_results host (now w)))
    as [r|] eqn:E; [|discriminate].
  injection Hret as <-.
  apply collect_all_spec in E. destruct E as (outcomes & HF & ->).
  assert (Hperm : Permutation (map snd completed) (ports_or_default ports)).
  { apply DrainFacts.run_to_end_ports. lia. }
  exists completed, outcomes. do 3 eexists.
  split; [exact Hperm|]. split; [exact HF|].
  repeat (split; [reflexivity|]).
  simpl. rewrite <- (Permutation_length Hperm), length_map.
  pose proof (Forall2_length HF) as HL.
  pose proof (filter_split_length status_is_open outcomes) as HS.
  unfold is_closed, Pool.future in *. lia.
Qed.

Lemma scan_report_accounts_for_every_port_witness :
  exists completed outcomes d opens closed,
    Permutation (map snd completed) [8080; 9999; 9000]
    /\ Forall2 (probe_result example_world "127.0.0.1") completed outcomes
    /\ PyDict (report_dict "127.0.0.1" "2024-05-01T12:00:00.000000"
                 [open_outcome 9000 "Unknown"; open_outcome 8080 "HTTP-Proxy"]
                 1) = PyDict d
    /\ dict_get "open_ports" d = Some (PyList opens)
    /\ dict_get "closed_ports" d = Some (PyInt closed)
    /\ opens = filter status_is_open outcomes
    /\ closed = Z.of_nat (length (filter is_closed outcomes))
    /\ closed + Z.of_nat (length opens) = 3.
Proof.
  apply (scan_report_accounts_for_every_port example_world "127.0.0.1"
           (Some [8080; 9999; 9000]) 50).
  vm_compute. reflexivity.
Defined.

(** C6. Without a port list [scan_host] scans the sixteen keys of
    [COMMON_PORTS] in the order of the table: a call without ports is the
    call with the list 21, 22, ..., 8080, in every world, and a run of
    [main] without [--ports] is the run with that list written out. *)
Theorem default_ports_are_the_catalog_keys w host size out :
  let keys := [21; 22; 23; 25; 53; 80; 110; 143; 443; 445; 993; 995; 3306;
               3389; 5432; 8080] in
  scan_host w host None size = scan_host w host (Some keys) size
  /\ main w {| target := host; ports := None; output := out;
               threads := size |}
     = main w {| target := host;
                 ports :=
                   Some "21,22,23,25,53,80,110,143,443,445,993,995,3306,3389,5432,8080";
                 output := out; threads := size |}
  /\ parse_ports None = Ok None
  /\ ports_or_default None = keys
  /\ length keys = 16%nat.
Proof.
  cbv zeta. split; [reflexivity|]. split; [|repeat split].
  unfold main. cbn [ports target threads output].
  match goal with |- context [parse_ports (Some ?t)] =>
    replace (parse_ports (Some t))
      with (Ok (A := option (list Z))
              (Some [21; 22; 23; 25; 53; 80; 110; 143; 443; 445; 993; 995;
                     3306; 3389; 5432; 8080]))
      by (vm_compute; reflexivity) end.
  reflexivity.
Qed.

(** C7. With a pool size of zero or less [scan_host] raises the
    [ValueError] of the executor's constructor, and no probe has run. *)
Theorem nonpositive_threads_rejected w host ports threads :
  threads <= 0 ->
  scan_host w host ports threads
  = {| probed := []; returned := Raise ValueError |}.
Proof.
  intros H. unfold scan_host, scan_pool, Pool.executor.
  destruct (Z.leb_spec threads 0); [|lia]. reflexivity.
Qed.

Lemma nonpositive_threads_rejected_witness :
  scan_host example_world "127.0.0.1" (Some [8080; 9999]) 0
  = {| probed := []; returned := Raise ValueError |}.
Proof.
  apply (nonpositive_threads_rejected example_world "127.0.0.1"
           (Some [8080; 9999]) 0).
  lia.
Defined.

Lemma settimeout_default : Socket.settimeout default_timeout = Ok tt.
Proof. reflexivity. Qed.

Lemma collect_all_in_range w host completed :
  host_converts_everywhere w host ->
  Forall (fun f : Pool.future => 0 <= snd f <= 65535) completed ->
  forall results, exists r, collect_all w host completed results = Ok r.
Proof.
  intros Hh.
  induction 1 as [|[i port] rest Hp _ IH]; intros results; simpl.
  - eauto.
  - destruct (scan_port_in_range_returns (net w i) host port default_timeout
                Hp settimeout_default (Hh i)) as [-> | ->]; simpl; apply IH.
Qed.

(** X4. A scan of ports within 0..65535 with a positive pool size, for a
    host name the socket layer can convert, always returns a report. *)
Lemma scan_host_completes w host ports threads :
  0 < threads ->
  Forall (fun p => 0 <= p <= 65535) (ports_or_default ports) ->
  host_converts_everywhere w host ->
  exists report, returned (scan_host w host ports threads) = Ok report.
Proof.
  intros Hpos Hall Hh. rewrite (scan_host_positive _ _ _ _ Hpos). cbv zeta.
  simpl returned.
  set (completed := Pool.done _).
  assert (Hc : Forall (fun f : Pool.future => 0 <= snd f <= 65535) completed).
  { assert (Hperm : Permutation (map snd completed) (ports_or_default ports))
      by (apply DrainFacts.run_to_end_ports; lia).
    apply Permutation_sym in Hperm.
    pose proof (Permutation_Forall Hperm Hall) as H.
    now rewrite Forall_map in H. }
  destruct (collect_all_in_range w host completed Hh Hc
              (new_results host (now w))) as [r ->].
  simpl. eauto.
Qed.

(** The probes that ran are the requested ports, each once. *)
Lemma scan_host_probes_each_port w host ports threads :
  0 < threads ->
  Permutation (probed (scan_host w host ports threads))
              (map (fun p => (host, p)) (ports_or_default ports)).
Proof.
  intros Hpos. rewrite (scan_host_positive _ _ _ _ Hpos). cbv zeta.
  simpl probed. rewrite <- (map_map snd (fun p => (host, p))).
  apply Permutation_map. apply DrainFacts.run_to_end_ports. lia.
Qed.

(** The run of the pool inside [scan_host]: its states stay within the
    bound, and its last state holds the probes [scan_host] reports. *)
Lemma scan_pool_positive w host ports threads :
  0 < threads ->
  exists states,
    scan_pool w (ports_or_default ports) threads = Ok states
    /\ hd_error states = Some (Pool.init (ports_or_default ports))
    /\ Forall (fun s => Z.of_nat (length (Pool.running s)) <= threads) states
    /\ Pool.idle (Pool.last_state states) = true
    /\ probed (scan_host w host ports threads)
       = map (fun f => (host, snd f)) (Pool.done (Pool.last_state states)).
Proof.
  intros Hpos. unfold scan_host, scan_pool, Pool.executor.
  destruct (Z.leb_spec threads 0); [lia|]. cbn [bind].
  eexists. split; [reflexivity|]. split; [apply PoolFacts.trace_head|].
  split; [|split; [|reflexivity]].
  - eapply Forall_impl; [|apply PoolFacts.inv_trace, PoolFacts.inv_init].
    intros s (H1 & H2 & _). lia.
  - rewrite PoolFacts.last_state_trace. apply DrainFacts.run_to_end_idle. lia.
Qed.

(** C9. A scan with a pool of [threads] workers goes through a sequence of
    pool states, from the one where nothing is submitted to one where
    nothing is left to do. In every state of that sequence at most
    [threads] probes are running; the probes [scan_host] executed are the
    ones finished in the last state, and they are the requested ports, each
    once. *)
Theorem pool_bound_and_single_dispatch w host ports threads :
  0 < threads ->
  exists states,
    scan_pool w (ports_or_default ports) threads = Ok states
    /\ hd_error states = Some (Pool.init (ports_or_default ports))
    /\ Forall (fun s => Z.of_nat (length (Pool.running s)) <= threads) states
    /\ Pool.idle (Pool.last_state states) = true
    /\ probed (scan_host w host ports threads)
       = map (fun f => (host, snd f)) (Pool.done (Pool.last_state states))
    /\ Permutation (probed (scan_host w host ports threads))
                   (map (fun p => (host, p)) (ports_or_default ports)).
Proof.
  intros Hpos.
  destruct (scan_pool_positive w host ports threads Hpos)
    as (states & H1 & H2 & H3 & H4 & H5).
  exists states. repeat (split; [assumption|]).
  now apply scan_host_probes_each_port.
Qed.

Lemma pool_bound_and_single_dispatch_witness :
  exists states,
    scan_pool example_world [8080; 9999; 9000] 2 = Ok states
    /\ hd_error states = Some (Pool.init [8080; 9999; 9000])
    /\ Forall (fun s => Z.of_nat (length (Pool.running s)) <= 2) states
    /\ Pool.idle (Pool.last_state states) = true
    /\ probed (scan_host example_world "127.0.0.1"
                 (Some [8080; 9999; 9000]) 2)
       = map (fun f => ("127.0.0.1", snd f))
             (Pool.done (Pool.last_state states))
    /\ Permutation
         (probed (scan_host example_world "127.0.0.1"
                    (Some [8080; 9999; 9000]) 2))
         [("127.0.0.1", 8080); ("127.0.0.1", 9999); ("127.0.0.1", 9000)].
Proof.
  apply (pool_bound_and_single_dispatch example_world "127.0.0.1"
           (Some [8080; 9999; 9000]) 2).
  lia.
Defined.

(** ** The port argument *)

Lemma py_int_raises s e : Str.py_int s = Raise e -> e = ValueError.
Proof.
  unfold Str.py_int.
  match goal with |- context [match ?x with Some _ => _ | None => _ end] =>
    destruct x end; [|now intros [= <-]].
  destruct (Str.max_str_digits <? _); [now intros [= <-] | discriminate].
Qed.

Lemma map_result_raises l tok :
  In tok l -> Str.py_int tok = Raise ValueError ->
  map_result Str.py_int l = Raise ValueError.
Proof.
  induction l as [|x l IH]; simpl; [tauto|].
  intros [->|Hin] Hr.
  - now rewrite Hr.
  - destruct (Str.py_int x) as [z|e] eqn:E; simpl.
    + now rewrite (IH Hin Hr).
    + now rewrite (py_int_raises _ _ E).
Qed.

Lemma map_result_ok l zs :
  Forall2 (fun tok z => Str.py_int tok = Ok z) l zs ->
  map_result Str.py_int l = Ok zs.
Proof.
  induction 1 as [|tok z l zs H _ IH]; simpl; [reflexivity|].
  now rewrite H, IH.
Qed.

Lemma split_without_sep c s : Str.contains c s = false -> Str.split c s = [s].
Proof.
  induction s as [|c' s IH]; simpl; [reflexivity|].
  intros H. apply orb_false_iff in H. destruct H as [Hc Hs].
  rewrite Ascii.eqb_sym, Hc. now rewrite (IH Hs).
Qed.

Lemma py_range_empty a b : b <= a -> py_range a b = [].
Proof.
  intros H. unfold py_range.
  replace (Z.to_nat (b - a)) with 0%nat by lia. reflexivity.
Qed.

Lemma parse_ports_list s :
  s <> EmptyString -> Str.contains "-" s = false ->
  parse_ports (Some s)
  = (ports <- map_result Str.py_int (Str.split "," s) ;; Ok (Some ports)).
Proof.
  intros Hne Hc. destruct s as [|c s]; [congruence|].
  unfold parse_ports. now rewrite Hc.
Qed.

Lemma py_list_range_empty a b : b <= a -> py_list_range a b = Ok [].
Proof.
  intros H. unfold py_list_range, ssize_max.
  destruct (Z.ltb_spec (2 ^ 63 - 1) (b - a)); [lia|].
  now rewrite py_range_empty.
Qed.

Lemma parse_ports_range s t1 t2 :
  Str.split "-" s = [t1; t2] ->
  parse_ports (Some s)
  = (start <- Str.py_int t1 ;; end_ <- Str.py_int t2 ;;
     l <- py_list_range start (end_ + 1) ;; Ok (Some l)).
Proof.
  intros Hs. destruct s as [|c s]; [discriminate|].
  unfold parse_ports.
  destruct (Str.contains "-" (String c s)) eqn:Hc.
  - now rewrite Hs.
  - rewrite (split_without_sep _ _ Hc) in Hs. discriminate.
Qed.

Lemma main_parse_error w a e :
  parse_ports (ports a) = Raise e ->
  main w a
  = {| main_probed := []; main_written := None; main_returned := Raise e |}.
Proof. intros H. unfold main. now rewrite H. Qed.

Lemma scan_host_no_ports w host threads :
  0 < threads ->
  scan_host w host (Some []) threads
  = {| probed := [];
       returned := Ok (PyDict (report_dict host (now w) [] 0)) |}.
Proof.
  intros Hpos. rewrite (scan_host_positive _ _ _ _ Hpos). cbv zeta.
  assert (H : Pool.done (Pool.run_to_end (Z.to_nat threads) (sched w) []) = []).
  { apply Permutation_nil. symmetry.
    apply (DrainFacts.run_to_end_done (Z.to_nat threads) (sched w) []). lia. }
  simpl ports_or_default. rewrite H. reflexivity.
Qed.

(** C4, as stated, fails: the range ["50-20"] is not refused; [main] goes on
    with an empty list of ports and ends normally. *)
Lemma reversed_range_not_rejected :
  parse_ports (Some "50-20") = Ok (Some [])
  /\ ~ rejected_before_probing example_world (example_args (Some "50-20")).
Proof.
  split; [reflexivity|].
  intros [[e He] _]. vm_compute in He. discriminate He.
Qed.

(** C4, amended. A comma list with a token [int] refuses makes [main] raise
    [ValueError] before any probe runs. A range whose start exceeds its end
    is not refused: it resolves to the empty list, [scan_host] runs no probe
    and returns a report with no open port and a count of zero, and [main]
    ends normally when the output file, if one is asked for, can be
    written. *)
Theorem malformed_port_argument w a s :
  ports a = Some s -> s <> EmptyString ->
  (Str.contains "-" s = false ->
   (exists tok, In tok (Str.split "," s)
                /\ Str.py_int tok = Raise ValueError) ->
   main w a = {| main_probed := []; main_written := None;
                 main_returned := Raise ValueError |})
  /\ (forall t1 t2 start end_,
        Str.split "-" s = [t1; t2] ->
        Str.py_int t1 = Ok start -> Str.py_int t2 = Ok end_ ->
        end_ < start -> 0 < threads a ->
        parse_ports (ports a) = Ok (Some [])
        /\ scan_host w (target a) (Some []) (threads a)
           = {| probed := [];
                returned := Ok (PyDict (report_dict (target a) (now w) [] 0)) |}
        /\ main_probed (main w a) = []
        /\ ((forall path, output a = Some path -> write_error w path = None) ->
            main_returned (main w a) = Ok tt)).
Proof.
  intros Hp Hne. split.
  - intros Hc (tok & Hin & Hbad). apply main_parse_error.
    rewrite Hp, (parse_ports_list _ Hne Hc).
    now rewrite (map_result_raises _ _ Hin Hbad).
  - intros t1 t2 start end_ Hs H1 H2 Hlt Hpos.
    assert (Hparse : parse_ports (ports a) = Ok (Some [])).
    { rewrite Hp, (parse_ports_range _ _ _ Hs), H1, H2. simpl.
      now rewrite py_list_range_empty by lia. }
    pose proof (scan_host_no_ports w (target a) (threads a) Hpos) as Hscan.
    split; [exact Hparse|]. split; [exact Hscan|].
    unfold main. rewrite Hparse, Hscan. cbn [returned probed].
    destruct (output a) as [[|c path]|] eqn:Ho; cbn; auto.
    destruct (write_error w (String c path)) as [n|] eqn:Hw; cbn; auto.
    split; [reflexivity|]. intros H. rewrite (H _ eq_refl) in Hw.
    discriminate Hw.
Qed.

Lemma malformed_port_argument_witness :
  main example_world (example_args (Some "22,foo"))
  = {| main_probed := []; main_written := None;
       main_returned := Raise ValueError |}
  /\ main_probed (main example_world (example_args (Some "50-20"))) = []
  /\ main_returned (main example_world (example_args (Some "50-20"))) = Ok tt.
Proof.
  split.
  - apply (proj1 (malformed_port_argument example_world
                    (example_args (Some "22,foo")) "22,foo"
                    eq_refl ltac:(discriminate))).
    + reflexivity.
    + exists "foo". split; [simpl; auto | reflexivity].
  - destruct (proj2 (malformed_port_argument example_world
                       (example_args (Some "50-20")) "50-20"
                       eq_refl ltac:(discriminate)) "50" "20" 50 20)
      as (_ & _ & Hprobed & Hret);
      [reflexivity | reflexivity | reflexivity | lia | simpl; lia |].
    split; [exact Hprobed|]. apply Hret. intros path _. reflexivity.
Defined.

(** ** The JSON round trip *)

Module JsonFacts.
Import Json JsonSpec.

(** *** Strings *)

Lemma scan_string_escape c s :
  scan_string (escape_char c ++ s)
  = match scan_string s with
    | Some (str, r) => Some (String c str, r)
    | None => None
    end.
Proof.
  destruct c as [[] [] [] [] [] [] [] []]; reflexivity.
Qed.

Lemma scan_string_body s rest :
  scan_string (flat_map escape_char (chars s) ++ DQ :: rest) = Some (s, rest).
Proof.
  induction s as [|c s IH]; [reflexivity|].
  change (chars (String c s)) with (c :: chars s). simpl flat_map.
  rewrite <- app_assoc, scan_string_escape, IH. reflexivity.
Qed.

Lemma encode_str_app s rest :
  encode_str s ++ rest = DQ :: flat_map escape_char (chars s) ++ DQ :: rest.
Proof. unfold encode_str. simpl. now rewrite <- app_assoc. Qed.

(** *** Numbers *)

Lemma scan_digits_uint u rest :
  ends_value rest = true ->
  scan_digits (uint_chars u ++ rest) = (u, rest).
Proof.
  intros Hr.
  assert (Hbase : scan_digits rest = (Decimal.Nil, rest)).
  { destruct rest as [|c r]; [reflexivity|]. simpl.
    destruct (digit_of c) eqn:E; [|reflexivity].
    exfalso. revert Hr E. unfold ends_value, digit_of.
    destruct c as [[] [] [] [] [] [] [] []]; simpl; discriminate. }
  induction u; simpl; try rewrite IHu; auto.
Qed.

Lemma ends_value_ends_int rest : ends_value rest = true -> ends_int rest = true.
Proof.
  destruct rest as [|c r]; [reflexivity|]. unfold ends_value, ends_int.
  intros H. apply negb_true_iff in H. apply negb_true_iff.
  repeat (apply orb_false_iff in H; destruct H as [H ?]).
  repeat (apply orb_false_iff; split); auto.
Qed.

Lemma to_uint_unorm p : Decimal.unorm (Pos.to_uint p) = Pos.to_uint p.
Proof.
  rewrite <- (DecimalPos.Unsigned.to_of (Pos.to_uint p)).
  now rewrite DecimalPos.Unsigned.of_to.
Qed.

Lemma to_uint_head p :
  match Pos.to_uint p with
  | Decimal.Nil | Decimal.D0 _ => False
  | _ => True
  end.
Proof.
  pose proof (to_uint_unorm p) as Hn.
  pose proof (DecimalPos.Unsigned.to_uint_nonzero p) as Hz.
  pose proof (DecimalPos.Unsigned.to_uint_nonnil p) as Hnil.
  destruct (Pos.to_uint p) as [|d| | | | | | | | |]; auto.
  unfold Decimal.unorm in Hn. simpl in Hn.
  pose proof (DecimalFacts.nzhead_nonzero d) as Hnz.
  destruct (Decimal.nzhead d) as [|u| | | | | | | | |];
    try discriminate Hn.
  - apply Hz. now rewrite <- Hn.
  - now apply (Hnz u).
Qed.

Lemma scan_unsigned_pos p rest :
  ends_value rest = true ->
  scan_unsigned (uint_chars (Pos.to_uint p) ++ rest) = Some (Zpos p, rest).
Proof.
  intros Hr. unfold scan_unsigned. rewrite (scan_digits_uint _ _ Hr).
  pose proof (to_uint_head p) as Hh.
  assert (Hv : Z.of_uint (Pos.to_uint p) = Zpos p).
  { unfold Z.of_uint. now rewrite DecimalPos.Unsigned.of_to. }
  rewrite (ends_value_ends_int _ Hr).
  destruct (Pos.to_uint p); try contradiction; now rewrite Hv.
Qed.

Lemma uint_chars_head p :
  exists c t, uint_chars (Pos.to_uint p) = c :: t
              /\ (49 <=? nat_of_ascii c)%nat && (nat_of_ascii c <=? 57)%nat
                 = true.
Proof.
  pose proof (to_uint_head p) as Hh.
  destruct (Pos.to_uint p); try contradiction; simpl; eauto.
Qed.

Lemma scan_number_int z rest :
  ends_value rest = true ->
  scan_number (encode_int z ++ rest) = Some (z, rest).
Proof.
  intros Hr. destruct z as [|p|p]; simpl.
  - unfold scan_number. simpl. unfold scan_unsigned. simpl.
    assert (Hbase : scan_digits rest = (Decimal.Nil, rest)).
    { apply (scan_digits_uint Decimal.Nil rest Hr). }
    rewrite Hbase. now rewrite (ends_value_ends_int _ Hr).
  - destruct (uint_chars_head p) as (c & t & Hc & Hd).
    unfold scan_number. rewrite Hc. simpl.
    replace (nat_of_ascii c =? 45)%nat with false.
    + change (c :: t ++ rest) with ((c :: t) ++ rest). rewrite <- Hc.
      apply scan_unsigned_pos, Hr.
    + symmetry. apply Nat.eqb_neq. apply andb_true_iff in Hd.
      destruct Hd as [Hd _]. apply Nat.leb_le in Hd. lia.
  - unfold scan_number. simpl. now rewrite (scan_unsigned_pos _ _ Hr).
Qed.

(** *** White space and first characters *)

Lemma skip_ws_indent k s : skip_ws (newline_indent k ++ s) = skip_ws s.
Proof.
  unfold newline_indent. simpl.
  induction (k + (k + 0))%nat as [|n IH]; simpl; auto.
Qed.

Lemma starts_value_not_ws c : starts_value c = true -> is_ws c = false.
Proof. destruct c as [[] [] [] [] [] [] [] []]; vm_compute; congruence. Qed.

Lemma starts_value_not_closing c n :
  starts_value c = true -> n = 93%nat \/ n = 125%nat ->
  (nat_of_ascii c =? n)%nat = false.
Proof.
  intros H [-> | ->]; revert H;
    destruct c as [[] [] [] [] [] [] [] []]; vm_compute; congruence.
Qed.

Lemma encode_items_eq level l :
  (fix items (l : list pyval) : text :=
     match l with
     | [] => []
     | y :: l' =>
         ","%char :: newline_indent level ++ encode level y ++ items l'
     end) l = encode_items level l.
Proof.
  induction l as [|y l IH]; [reflexivity|].
  cbn [encode_items]. rewrite <- IH. reflexivity.
Qed.

Lemma encode_members_eq level l :
  (fix members (l : list (string * pyval)) : text :=
     match l with
     | [] => []
     | (k', y) :: l' =>
         ","%char :: newline_indent level ++ encode_str k'
         ++ chars ": " ++ encode level y ++ members l'
     end) l = encode_members level l.
Proof.
  induction l as [|[k y] l IH]; [reflexivity|].
  cbn [encode_members]. rewrite <- IH. reflexivity.
Qed.

Lemma encode_list_cons level x xs :
  encode level (PyList (x :: xs))
  = "["%char :: newline_indent (S level) ++ encode (S level) x
    ++ encode_items (S level) xs ++ newline_indent level ++ ["]"%char].
Proof.
  change (encode level (PyList (x :: xs))) with
    ("["%char :: newline_indent (S level) ++ encode (S level) x
     ++ (fix items (l : list pyval) : text :=
           match l with
           | [] => []
           | y :: l' =>
               ","%char :: newline_indent (S level) ++ encode (S level) y
               ++ items l'
           end) xs
     ++ newline_indent level ++ ["]"%char]).
  now rewrite encode_items_eq.
Qed.

Lemma encode_dict_cons level k x kxs :
  encode level (PyDict ((k, x) :: kxs))
  = "{"%char :: newline_indent (S level) ++ encode_str k ++ chars ": "
    ++ encode (S level) x ++ encode_members (S level) kxs
    ++ newline_indent level ++ ["}"%char].
Proof.
  change (encode level (PyDict ((k, x) :: kxs))) with
    ("{"%char :: newline_indent (S level) ++ encode_str k ++ chars ": "
     ++ encode (S level) x
     ++ (fix members (l : list (string * pyval)) : text :=
           match l with
           | [] => []
           | (k', y) :: l' =>
               ","%char :: newline_indent (S level) ++ encode_str k'
               ++ chars ": " ++ encode (S level) y ++ members l'
           end) kxs
     ++ newline_indent level ++ ["}"%char]).
  now rewrite encode_members_eq.
Qed.

Lemma encode_head level v :
  exists c t, encode level v = c :: t /\ starts_value c = true.
Proof.
  destruct v as [|z|s|[|x xs]|[|[k x] kxs]].
  - do 2 eexists. split; reflexivity.
  - destruct z as [|p|p].
    + do 2 eexists. split; reflexivity.
    + destruct (uint_chars_head p) as (c & t & Hc & Hd).
      exists c, t. split; [exact Hc|]. revert Hd.
      destruct c as [[] [] [] [] [] [] [] []]; vm_compute; congruence.
    + do 2 eexists. split; reflexivity.
  - do 2 eexists. split; reflexivity.
  - do 2 eexists. split; reflexivity.
  - rewrite encode_list_cons. do 2 eexists. split; reflexivity.
  - do 2 eexists. split; reflexivity.
  - rewrite encode_dict_cons. do 2 eexists. split; reflexivity.
Qed.

Lemma skip_ws_value level v r :
  skip_ws (encode level v ++ r) = encode level v ++ r.
Proof.
  destruct (encode_head level v) as (c & t & -> & Hc).
  simpl. now rewrite (starts_value_not_ws _ Hc).
Qed.

Lemma head_is_value n level v r :
  n = 93%nat \/ n = 125%nat -> head_is n (encode level v ++ r) = false.
Proof.
  intros Hn. destruct (encode_head level v) as (c & t & -> & Hc).
  simpl. now apply starts_value_not_closing.
Qed.

(** *** Dictionaries read back *)

Lemma dict_set_fresh k v d :
  ~ In k (map fst d) -> dict_set k v d = d ++ [(k, v)].
Proof.
  induction d as [|[k' v'] d IH]; simpl; [reflexivity|].
  intros H. destruct (String.eqb_spec k k') as [->|_]; [tauto|].
  rewrite IH; tauto.
Qed.

Lemma dict_of_pairs_acc d acc :
  NoDup (map fst (acc ++ d)) ->
  fold_left (fun d kv => dict_set (fst kv) (snd kv) d) d acc = acc ++ d.
Proof.
  revert acc. induction d as [|[k v] d IH]; intros acc H; simpl.
  - now rewrite app_nil_r.
  - rewrite dict_set_fresh.
    + rewrite IH; rewrite <- app_assoc; [reflexivity | exact H].
    + rewrite map_app in H. simpl in H.
      apply NoDup_remove_2 in H. intros Hin. apply H.
      apply in_or_app. now left.
Qed.

Lemma dict_of_pairs_nodup d : NoDup (map fst d) -> dict_of_pairs d = d.
Proof. intros H. unfold dict_of_pairs. now rewrite dict_of_pairs_acc. Qed.

(** *** One step of each parser *)

Lemma parse_value_string f s :
  parse_value (S f) (DQ :: s)
  = match scan_string s with
    | Some (str, r) => Some (PyStr str, r)
    | None => None
    end.
Proof. reflexivity. Qed.

Lemma parse_value_list f s :
  parse_value (S f) ("["%char :: s)
  = if head_is 93 (skip_ws s) then Some (PyList [], tl (skip_ws s))
    else match parse_items f (skip_ws s) with
         | Some (l, r) => Some (PyList l, r)
         | None => None
         end.
Proof. reflexivity. Qed.

Lemma parse_value_dict f s :
  parse_value (S f) ("{"%char :: s)
  = if head_is 125 (skip_ws s) then Some (PyDict [], tl (skip_ws s))
    else if head_is 34 (skip_ws s) then
      match parse_members f (tl (skip_ws s)) with
      | Some (l, r) => Some (PyDict (dict_of_pairs l), r)
      | None => None
      end
    else None.
Proof. reflexivity. Qed.

Lemma parse_value_number f c t :
  (nat_of_ascii c =? 45)%nat
  || ((48 <=? nat_of_ascii c)%nat && (nat_of_ascii c <=? 57)%nat) = true ->
  parse_value (S f) (c :: t)
  = match scan_number (c :: t) with
    | Some (z, r) => Some (PyInt z, r)
    | None => None
    end.
Proof.
  intros H. cbn [parse_value].
  assert (E : ((nat_of_ascii c =? 34) = false
               /\ (nat_of_ascii c =? 91) = false
               /\ (nat_of_ascii c =? 123) = false
               /\ (nat_of_ascii c =? 110) = false)%nat).
  { revert H. destruct c as [[] [] [] [] [] [] [] []]; vm_compute;
      intuition congruence. }
  destruct E as (-> & -> & -> & ->). reflexivity.
Qed.

Lemma encode_int_head z :
  exists c t, encode_int z = c :: t
    /\ (nat_of_ascii c =? 45)%nat
       || ((48 <=? nat_of_ascii c)%nat && (nat_of_ascii c <=? 57)%nat) = true.
Proof.
  destruct z as [|p|p].
  - do 2 eexists. split; reflexivity.
  - destruct (uint_chars_head p) as (c & t & Hc & Hd).
    exists c, t. split; [exact Hc|]. revert Hd.
    destruct c as [[] [] [] [] [] [] [] []]; vm_compute; congruence.
  - do 2 eexists. split; reflexivity.
Qed.

Lemma parse_items_step f s :
  parse_items (S f) s
  = match parse_value f s with
    | None => None
    | Some (v, r) =>
        if head_is 93 (skip_ws r) then Some ([v], tl (skip_ws r))
        else if head_is 44 (skip_ws r) then
          match parse_items f (skip_ws (tl (skip_ws r))) with
          | Some (l, r2) => Some (v :: l, r2)
          | None => None
          end
        else None
    end.
Proof. reflexivity. Qed.

Lemma parse_members_step f s :
  parse_members (S f) s
  = match scan_string s with
    | None => None
    | Some (k, r) =>
        if head_is 58 (skip_ws r) then
          match parse_value f (skip_ws (tl (skip_ws r))) with
          | None => None
          | Some (v, r2) =>
              if head_is 125 (skip_ws r2) then Some ([(k, v)], tl (skip_ws r2))
              else if head_is 44 (skip_ws r2) then
                if head_is 34 (skip_ws (tl (skip_ws r2))) then
                  match parse_members f (tl (skip_ws (tl (skip_ws r2)))) with
                  | Some (l, r5) => Some ((k, v) :: l, r5)
                  | None => None
                  end
                else None
              else None
          end
        else None
    end.
Proof. reflexivity. Qed.

(** What follows an element in an array or a member in an object. *)
Lemma ends_value_items level l k c rest :
  ends_value (encode_items level l ++ newline_indent k ++ c :: rest) = true.
Proof. destruct l; reflexivity. Qed.

Lemma ends_value_members level l k c rest :
  ends_value (encode_members level l ++ newline_indent k ++ c :: rest) = true.
Proof. destruct l as [|[? ?] ?]; reflexivity. Qed.

Lemma size_pos v : (1 <= size v)%nat.
Proof. destruct v; simpl; lia. Qed.

Lemma skip_ws_keep c s : is_ws c = false -> skip_ws (c :: s) = c :: s.
Proof. intros H. simpl. now rewrite H. Qed.

(** *** Reading back what was written *)

Lemma parse_encode fuel :
  (forall v level rest,
      (size v <= fuel)%nat -> wf v -> ends_value rest = true ->
      parse_value fuel (encode level v ++ rest) = Some (v, rest))
  /\ (forall x xs level k rest,
        (size_items (x :: xs) <= fuel)%nat -> wf_items (x :: xs) ->
        parse_items fuel
          (encode level x ++ encode_items level xs
           ++ newline_indent k ++ "]"%char :: rest)
        = Some (x :: xs, rest))
  /\ (forall key x kxs level k rest,
        (size_members ((key, x) :: kxs) <= fuel)%nat ->
        wf_members ((key, x) :: kxs) ->
        parse_members fuel
          (flat_map escape_char (chars key) ++ DQ :: chars ": "
           ++ encode level x ++ encode_members level kxs
           ++ newline_indent k ++ "}"%char :: rest)
        = Some ((key, x) :: kxs, rest)).
Proof.
  induction fuel as [|f (IHv & IHi & IHm)].
  - split; [|split].
    + intros v ? ? H. pose proof (size_pos v). lia.
    + intros x xs ? ? ? H. simpl in H. lia.
    + intros key x kxs ? ? ? H. simpl in H. lia.
  - split; [|split].
    + intros v level rest Hs Hw Hr.
      destruct v as [|z|s|[|x xs]|[|[key x] kxs]];
        try change (size (PyList (x :: xs)))
              with (S (size_items (x :: xs))) in Hs;
        try change (size (PyDict ((key, x) :: kxs)))
              with (S (size_members ((key, x) :: kxs))) in Hs.
      * reflexivity.
      * destruct (encode_int_head z) as (c & t & Hc & Hd).
        change (encode level (PyInt z)) with (encode_int z).
        pose proof (scan_number_int z rest Hr) as Hn.
        rewrite Hc in *. cbn [app] in *.
        rewrite (parse_value_number f c _ Hd), Hn. reflexivity.
      * change (encode level (PyStr s)) with (encode_str s).
        rewrite encode_str_app, parse_value_string, scan_string_body.
        reflexivity.
      * reflexivity.
      * rewrite encode_list_cons. cbn [app]. rewrite <- ?app_assoc.
        cbn [app].
        rewrite parse_value_list, skip_ws_indent, skip_ws_value.
        rewrite head_is_value by auto.
        rewrite IHi; [reflexivity | lia | exact Hw].
      * reflexivity.
      * rewrite encode_dict_cons. cbn [app]. rewrite <- ?app_assoc.
        cbn [app].
        rewrite parse_value_dict, skip_ws_indent.
        rewrite encode_str_app.
        rewrite (skip_ws_keep DQ) by reflexivity.
        cbn [head_is tl]. change (nat_of_ascii DQ =? 125)%nat with false.
        change (nat_of_ascii DQ =? 34)%nat with true. cbv iota.
        destruct Hw as [Hnd Hw].
        rewrite IHm; [| lia | exact Hw].
        now rewrite (dict_of_pairs_nodup _ Hnd).
    + intros x xs level k rest Hs Hw. rewrite parse_items_step.
      destruct Hw as [Hwx Hwxs].
      change (size_items (x :: xs)) with (S (size x + size_items xs)) in Hs.
      rewrite IHv; [| lia | exact Hwx | apply ends_value_items].
      destruct xs as [|y ys].
      * cbn [encode_items app]. rewrite skip_ws_indent.
        rewrite (skip_ws_keep "]") by reflexivity. reflexivity.
      * cbn [encode_items app].
        rewrite (skip_ws_keep ",") by reflexivity.
        cbn [head_is tl]. change (nat_of_ascii "," =? 93)%nat with false.
        change (nat_of_ascii "," =? 44)%nat with true. cbv iota.
        rewrite <- ?app_assoc.
        rewrite skip_ws_indent, skip_ws_value.
        rewrite IHi; [reflexivity | lia | exact Hwxs].
    + intros key x kxs level k rest Hs Hw. rewrite parse_members_step.
      change (size_members ((key, x) :: kxs))
        with (S (size x + size_members kxs)) in Hs.
      rewrite scan_string_body.
      destruct Hw as [Hwx Hwxs]. simpl in Hwx.
      change (chars ": ") with [":"%char; " "%char]. cbn [app].
      rewrite (skip_ws_keep ":") by reflexivity.
      cbn [head_is tl]. change (nat_of_ascii ":" =? 58)%nat with true.
      cbv iota.
      change (skip_ws (" "%char :: ?s)) with (skip_ws s).
      rewrite skip_ws_value.
      rewrite IHv; [| lia | exact Hwx | apply ends_value_members].
      destruct kxs as [|[key' y] l].
      * cbn [encode_members app]. rewrite skip_ws_indent.
        rewrite (skip_ws_keep "}") by reflexivity. reflexivity.
      * cbn [encode_members app].
        rewrite (skip_ws_keep ",") by reflexivity.
        cbn [head_is tl]. change (nat_of_ascii "," =? 125)%nat with false.
        change (nat_of_ascii "," =? 44)%nat with true. cbv iota.
        rewrite <- ?app_assoc.
        rewrite skip_ws_indent, encode_str_app.
        rewrite (skip_ws_keep DQ) by reflexivity.
        cbn [head_is tl]. change (nat_of_ascii DQ =? 34)%nat with true.
        cbv iota.
        change (chars ": ") with [":"%char; " "%char]. cbn [app].
        rewrite <- ?app_assoc.
        pose proof (IHm key' y l level k rest) as H. cbn [app] in H.
        change (chars ": ") with [":"%char; " "%char] in H. cbn [app] in H.
        rewrite H; [reflexivity | lia | exact Hwxs].
Qed.

(** *** The text is long enough to serve as fuel *)

Lemma newline_indent_length k : (1 <= length (newline_indent k))%nat.
Proof. unfold newline_indent. simpl. lia. Qed.

Lemma size_le_length n :
  (forall v level, (size v <= n)%nat ->
                   (size v <= length (encode level v))%nat)
  /\ (forall xs level, (size_items xs <= n)%nat ->
                       (size_items xs <= length (encode_items level xs))%nat)
  /\ (forall kxs level,
        (size_members kxs <= n)%nat ->
        (size_members kxs <= length (encode_members level kxs))%nat).
Proof.
  induction n as [|n (IHv & IHi & IHm)].
  - split; [|split].
    + intros v ? H. pose proof (size_pos v). lia.
    + intros [|x xs] ? H; simpl in *; lia.
    + intros [|[k x] kxs] ? H; simpl in *; lia.
  - split; [|split].
    + intros v level Hs.
      destruct v as [|z|s|[|x xs]|[|[key x] kxs]];
        try change (size (PyList (x :: xs)))
              with (S (S (size x + size_items xs))) in *;
        try change (size (PyDict ((key, x) :: kxs)))
              with (S (S (size x + size_members kxs))) in *.
      * simpl. lia.
      * destruct (encode_int_head z) as (c & t & Hc & _).
        change (encode level (PyInt z)) with (encode_int z). rewrite Hc.
        simpl. lia.
      * simpl. lia.
      * simpl. lia.
      * rewrite encode_list_cons. cbn [length]. rewrite !length_app.
        pose proof (newline_indent_length (S level)).
        pose proof (IHv x (S level)). pose proof (IHi xs (S level)). lia.
      * simpl. lia.
      * rewrite encode_dict_cons. cbn [length]. rewrite !length_app.
        pose proof (newline_indent_length (S level)).
        pose proof (IHv x (S level)). pose proof (IHm kxs (S level)). lia.
    + intros [|x xs] level Hs; [simpl; lia|].
      change (size_items (x :: xs)) with (S (size x + size_items xs)) in *.
      cbn [encode_items length]. rewrite !length_app.
      pose proof (newline_indent_length level).
      pose proof (IHv x level). pose proof (IHi xs level). lia.
    + intros [|[k x] kxs] level Hs; [simpl; lia|].
      change (size_members ((k, x) :: kxs))
        with (S (size x + size_members kxs)) in *.
      cbn [encode_members length]. rewrite !length_app.
      pose proof (newline_indent_length level).
      pose proof (IHv x level). pose proof (IHm kxs level). lia.
Qed.

(** Every value whose dictionaries have distinct keys is read back as it
    was written. *)
Lemma loads_dumps v : wf v -> loads (dumps v) = Ok v.
Proof.
  intros Hw. unfold loads, dumps, chars.
  rewrite list_ascii_of_string_of_list_ascii.
  pose proof (skip_ws_value 0 v []) as Hskip. rewrite app_nil_r in Hskip.
  rewrite Hskip.
  pose proof (proj1 (parse_encode (S (length (encode 0 v)))) v 0%nat []) as H.
  rewrite app_nil_r in H. rewrite H; [reflexivity | | exact Hw | reflexivity].
  pose proof (proj1 (size_le_length (size v)) v 0%nat). lia.
Qed.

Lemma probe_outcome_wf o : is_probe_outcome o -> wf o.
Proof.
  intros (port & status & service & -> & Hs). simpl. split.
  - repeat constructor; simpl; intuition discriminate.
  - destruct Hs as [-> | [name ->]]; simpl; auto.
Qed.

Lemma scan_report_wf r : is_scan_report r -> wf r.
Proof.
  intros (host & scan_time & opens & closed & -> & HF). simpl. split.
  - repeat constructor; simpl; intuition discriminate.
  - repeat split; auto.
    induction HF as [|o l Ho _ IH]; simpl; auto.
    split; [now apply probe_outcome_wf | exact IH].
Qed.

End JsonFacts.

(** [scan_port] returns probe outcomes and [scan_host] returns reports. *)
Lemma scan_port_is_probe_outcome e host port timeout o :
  scan_port e host port timeout = Ok o -> is_probe_outcome o.
Proof.
  intros H. destruct (scan_port_shape _ _ _ _ _ H) as [-> | ->].
  - exists port, "open", (PyStr (COMMON_PORTS_get port "Unknown")). eauto.
  - exists port, "closed", PyNone. auto.
Qed.

Lemma scan_host_is_scan_report w host ports threads r :
  returned (scan_host w host ports threads) = Ok r -> is_scan_report r.
Proof.
  intros H.
  destruct (scan_report_accounts_for_every_port_aux _ _ _ _ _ H)
    as (completed & outcomes & HF & ->).
  do 4 eexists. split; [reflexivity|].
  clear H. induction HF as [|f o fs os Hfo _ IH]; simpl; [constructor|].
  destruct (status_is_open o); auto.
  constructor; [|exact IH]. exact (scan_port_is_probe_outcome _ _ _ _ _ Hfo).
Qed.

(** C8. Writing a scan report with [json.dump(..., indent=2)] and reading
    the text back with [json.loads] gives the report again: the same
    ['host'], the same ['closed_ports'], and the same ['open_ports'] list,
    element for element in the order it had. *)
Theorem report_round_trip r :
  is_scan_report r ->
  Json.loads (Json.dumps r) = Ok r
  /\ exists host scan_time open_ports closed_ports d,
       r = PyDict (report_dict host scan_time open_ports closed_ports)
       /\ Json.loads (Json.dumps r) = Ok (PyDict d)
       /\ dict_get "host" d = Some (PyStr host)
       /\ dict_get "closed_ports" d = Some (PyInt closed_ports)
       /\ dict_get "open_ports" d = Some (PyList open_ports).
Proof.
  intros Hr.
  pose proof (JsonFacts.loads_dumps r (JsonFacts.scan_report_wf r Hr)) as H.
  split; [exact H|].
  destruct Hr as (host & scan_time & opens & closed & -> & _).
  exists host, scan_time, opens, closed. eexists.
  split; [reflexivity|]. split; [exact H|]. repeat split.
Qed.

Lemma report_round_trip_witness :
  Json.loads (Json.dumps example_report) = Ok example_report
  /\ exists host scan_time open_ports closed_ports d,
       example_report
       = PyDict (report_dict host scan_time open_ports closed_ports)
       /\ Json.loads (Json.dumps example_report) = Ok (PyDict d)
       /\ dict_get "host" d = Some (PyStr host)
       /\ dict_get "closed_ports" d = Some (PyInt closed_ports)
       /\ dict_get "open_ports" d = Some (PyList open_ports).
Proof.
  apply (report_round_trip example_report).
  do 4 eexists. split; [reflexivity|].
  constructor; [|constructor; [|constructor]].
  - exists 9000, "open", (PyStr "Unknown"). split; [reflexivity|]. eauto.
  - exists 8080, "open", (PyStr "HTTP-Proxy"). split; [reflexivity|]. eauto.
Defined.

(** ** The scenarios of the specification *)

Example resolve_list : parse_ports (Some "22,80,443") = Ok (Some [22; 80; 443]).
Proof. reflexivity. Qed.

Example resolve_range : parse_ports (Some "20-22") = Ok (Some [20; 21; 22]).
Proof. reflexivity. Qed.

Example scan_nothing_listening :
  returned (scan_host example_world "127.0.0.1" (Some [1234]) 50)
  = Ok (PyDict (report_dict "127.0.0.1" "2024-05-01T12:00:00.000000" [] 1)).
Proof. vm_compute. reflexivity. Qed.

Example scan_one_listener :
  returned (scan_host example_world "127.0.0.1" (Some [8080; 9999]) 50)
  = Ok (PyDict (report_dict "127.0.0.1" "2024-05-01T12:00:00.000000"
                  [open_outcome 8080 "HTTP-Proxy"] 1)).
Proof. vm_compute. reflexivity. Qed.

Example written_file :
  main_written (main example_world (example_args (Some "8080,9999")))
  = Some ("scan.json",
          Json.dumps
            (PyDict (report_dict "127.0.0.1" "2024-05-01T12:00:00.000000"
                       [open_outcome 8080 "HTTP-Proxy"] 1))).
Proof. vm_compute. reflexivity. Qed.

(** * Further properties *)

(** ** [scan_port], case by case *)

Lemma scan_port_cases e host port timeout :
  scan_port e host port timeout
  = match Socket.create_error e with
    | Some _ => Ok (closed_outcome port)
    | None =>
        if negb (Socket.fits_time timeout) then Raise OverflowError
        else if negb (Qle_bool 0 timeout) then Raise ValueError
        else if negb (Socket.host_converts e host) then Raise TypeError
        else if negb ((Socket.c_int_min <=? port) && (port <=? Socket.c_int_max))
        then Raise OverflowError
        else if negb (Socket.host_resolves e host) then Ok (closed_outcome port)
        else if negb ((0 <=? port) && (port <=? 65535)) then Raise OverflowError
        else if Socket.connect_errno e host port =? 0
        then Ok (open_outcome port (COMMON_PORTS_get port "Unknown"))
        else Ok (closed_outcome port)
    end.
Proof.
  unfold scan_port, scan_port_try, Socket.socket_socket, Socket.settimeout,
    Socket.connect_ex.
  destruct (Socket.create_error e); simpl; [reflexivity|].
  destruct (Socket.fits_time timeout); simpl; [|reflexivity].
  destruct (Qle_bool 0 timeout); simpl; [|reflexivity].
  destruct (Socket.host_converts e host); simpl; [|reflexivity].
  destruct ((Socket.c_int_min <=? port) && (port <=? Socket.c_int_max));
    simpl; [|reflexivity].
  destruct (Socket.host_resolves e host); simpl; [|reflexivity].
  destruct ((0 <=? port) && (port <=? 65535)); simpl; reflexivity.
Qed.

Lemma timeout_in_bounds_accepted timeout :
  timeout_in_bounds timeout = true ->
  Socket.fits_time timeout = true /\ Qle_bool 0 timeout = true.
Proof.
  unfold timeout_in_bounds, Socket.fits_time, Socket.time_min,
    Socket.time_max.
  intros H. apply andb_true_iff in H. destruct H as [H0 H1].
  split; [|exact H0]. apply andb_true_iff.
  apply Qle_bool_iff in H0, H1. revert H0 H1.
  destruct timeout as [n d]. unfold Qle. cbn. intros H0 H1.
  split; apply Qle_bool_iff; unfold Qle; cbn; lia.
Qed.

Lemma in_range_tests port :
  in_port_range port ->
  (Socket.c_int_min <=? port) && (port <=? Socket.c_int_max) = true
  /\ (0 <=? port) && (port <=? 65535) = true.
Proof.
  unfold in_port_range, Socket.c_int_min, Socket.c_int_max. intros H.
  split; apply andb_true_iff; split; apply Z.leb_le; lia.
Qed.

(** X1. For a port in 0..65535, a timeout between 0 and 2147483 seconds
    and a host name the socket layer can convert, [scan_port] returns a
    dictionary. Its status is ['open'] exactly when the socket could be
    created, the host resolved and [connect_ex] returned 0; it is then the
    open dictionary with the service looked up in [COMMON_PORTS], and
    otherwise the closed dictionary with [None] for the service. *)
Theorem scan_port_open_iff_connected e host port timeout :
  in_port_range port -> timeout_in_bounds timeout = true ->
  Socket.host_converts e host = true ->
  exists o,
    scan_port e host port timeout = Ok o
    /\ (status_is_open o = true <->
        Socket.create_error e = None
        /\ Socket.host_resolves e host = true
        /\ Socket.connect_errno e host port = 0)
    /\ o = if status_is_open o
           then open_outcome port (COMMON_PORTS_get port "Unknown")
           else closed_outcome port.
Proof.
  intros Hp Ht Hh. rewrite scan_port_cases, Hh.
  destruct (timeout_in_bounds_accepted _ Ht) as [-> ->].
  destruct (in_range_tests port Hp) as [-> ->]. simpl.
  destruct (Socket.create_error e) as [n|].
  - eexists. split; [reflexivity|]. simpl. split; [|reflexivity].
    split; [discriminate|]. intros (H & _). discriminate H.
  - destruct (Socket.host_resolves e host); simpl.
    + destruct (Z.eqb_spec (Socket.connect_errno e host port) 0) as [E|E];
        eexists; (split; [reflexivity|]); simpl; (split; [|reflexivity]);
        split; auto.
      * discriminate.
      * intros (_ & _ & H). contradiction.
    + eexists. split; [reflexivity|]. simpl. split; [|reflexivity].
      split; [discriminate|]. intros (_ & H & _). discriminate H.
Qed.

Lemma scan_port_open_iff_connected_witness :
  exists o,
    scan_port loopback "127.0.0.1" 8080 default_timeout = Ok o
    /\ (status_is_open o = true <->
        Socket.create_error loopback = None
        /\ Socket.host_resolves loopback "127.0.0.1" = true
        /\ Socket.connect_errno loopback "127.0.0.1" 8080 = 0)
    /\ o = if status_is_open o
           then open_outcome 8080 (COMMON_PORTS_get 8080 "Unknown")
           else closed_outcome 8080.
Proof.
  apply (scan_port_open_iff_connected loopback "127.0.0.1" 8080
           default_timeout).
  - unfold in_port_range. lia.
  - reflexivity.
  - reflexivity.
Defined.

Lemma range_tests_fail port :
  (Socket.c_int_min <=? port) && (port <=? Socket.c_int_max) = false
  \/ (0 <=? port) && (port <=? 65535) = false ->
  ~ in_port_range port.
Proof.
  unfold in_port_range, Socket.c_int_min, Socket.c_int_max.
  intros [H|H] Hp; apply andb_false_iff in H;
    destruct H as [H|H]; apply Z.leb_gt in H; lia.
Qed.

Lemma scan_port_raise_cases e host port timeout ex :
  scan_port e host port timeout = Raise ex ->
  is_socket_error ex = false
  /\ (((ex = ValueError \/ ex = OverflowError)
       /\ timeout_in_bounds timeout = false)
      \/ (ex = TypeError /\ Socket.host_converts e host = false)
      \/ (ex = OverflowError /\ ~ in_port_range port)).
Proof.
  rewrite scan_port_cases.
  destruct (Socket.create_error e); [discriminate|].
  destruct (timeout_in_bounds timeout) eqn:Et.
  - destruct (timeout_in_bounds_accepted _ Et) as [-> ->]. cbn [negb].
    destruct (Socket.host_converts e host); cbn [negb];
      [|intros [= <-]; split; [reflexivity | right; left; auto]].
    destruct ((Socket.c_int_min <=? port) && (port <=? Socket.c_int_max))
      eqn:E1; cbn [negb].
    + destruct (Socket.host_resolves e host); cbn [negb]; [|discriminate].
      destruct ((0 <=? port) && (port <=? 65535)) eqn:E2; cbn [negb].
      * destruct (Socket.connect_errno e host port =? 0); discriminate.
      * intros [= <-]. split; [reflexivity|]. right. right.
        split; [reflexivity|]. apply range_tests_fail. now right.
    + intros [= <-]. split; [reflexivity|]. right. right.
      split; [reflexivity|]. apply range_tests_fail. now left.
  - destruct (Socket.fits_time timeout); cbn [negb];
      [|intros [= <-]; split; [reflexivity | left; auto]].
    destruct (Qle_bool 0 timeout); cbn [negb];
      [|intros [= <-]; split; [reflexivity | left; auto]].
    destruct (Socket.host_converts e host); cbn [negb];
      [|intros [= <-]; split; [reflexivity | right; left; auto]].
    destruct ((Socket.c_int_min <=? port) && (port <=? Socket.c_int_max))
      eqn:E1; cbn [negb].
    + destruct (Socket.host_resolves e host); cbn [negb]; [|discriminate].
      destruct ((0 <=? port) && (port <=? 65535)) eqn:E2; cbn [negb].
      * destruct (Socket.connect_errno e host port =? 0); discriminate.
      * intros [= <-]. split; [reflexivity|]. right. right.
        split; [reflexivity|]. apply range_tests_fail. now right.
    + intros [= <-]. split; [reflexivity|]. right. right.
      split; [reflexivity|]. apply range_tests_fail. now left.
Qed.

(** X2. [scan_port] lets an exception out in three cases only: a timeout
    outside 0..2147483 seconds ([ValueError] or [OverflowError] of
    [settimeout]), a host name the socket layer cannot convert
    ([TypeError] of [connect_ex]) and a port outside 0..65535
    ([OverflowError] of [connect_ex]). No socket error ever leaves it. *)
Theorem scan_port_raises_only e host port timeout ex :
  scan_port e host port timeout = Raise ex ->
  is_socket_error ex = false
  /\ (((ex = ValueError \/ ex = OverflowError)
       /\ timeout_in_bounds timeout = false)
      \/ (ex = TypeError /\ Socket.host_converts e host = false)
      \/ (ex = OverflowError /\ ~ in_port_range port)).
Proof. exact (scan_port_raise_cases e host port timeout ex). Qed.

Lemma scan_port_raises_only_witness :
  is_socket_error OverflowError = false
  /\ (((OverflowError = ValueError \/ OverflowError = OverflowError)
       /\ timeout_in_bounds default_timeout = false)
      \/ (OverflowError = TypeError
          /\ Socket.host_converts loopback "127.0.0.1" = false)
      \/ (OverflowError = OverflowError /\ ~ in_port_range 70000)).
Proof.
  apply (scan_port_raises_only loopback "127.0.0.1" 70000 default_timeout).
  reflexivity.
Defined.

Lemma catalog_lookup port name :
  In (port, name) COMMON_PORTS -> COMMON_PORTS_get port "Unknown" = name.
Proof.
  unfold COMMON_PORTS. simpl. intros H.
  repeat (destruct H as [H|H]; [injection H as <- <-; reflexivity|]).
  contradiction.
Qed.

(** X3. For every entry of [COMMON_PORTS], an open outcome for its port
    carries the service name of that entry. *)
Theorem listed_open_port_service_name e host port timeout name o :
  In (port, name) COMMON_PORTS ->
  scan_port e host port timeout = Ok o ->
  status_is_open o = true ->
  service_of o = Some (PyStr name).
Proof.
  intros Hin Hscan Hopen.
  destruct (scan_port_shape _ _ _ _ _ Hscan) as [-> | ->].
  - simpl. now rewrite (catalog_lookup _ _ Hin).
  - discriminate Hopen.
Qed.

Lemma listed_open_port_service_name_witness :
  service_of (open_outcome 8080 "HTTP-Proxy") = Some (PyStr "HTTP-Proxy").
Proof.
  apply (listed_open_port_service_name loopback "127.0.0.1" 8080
           default_timeout "HTTP-Proxy").
  - simpl. repeat (try (left; reflexivity); right).
  - reflexivity.
  - reflexivity.
Defined.

(** ** [scan_host], run by run *)

Lemma in_futures_of ports i port :
  In (i, port) (futures_of ports) <-> nth_error ports i = Some port.
Proof.
  unfold futures_of.
  assert (H : forall k, In (i, port) (combine (seq k (length ports)) ports)
                        <-> (k <= i)%nat /\ nth_error ports (i - k) = Some port).
  { induction ports as [|p l IH]; intros k; simpl.
    - split; [tauto|]. intros [_ H]. now destruct (i - k)%nat.
    - rewrite IH. split.
      + intros [[= <- <-]|[Hk Hn]].
        * split; [lia|]. now rewrite Nat.sub_diag.
        * split; [lia|]. now replace (i - k)%nat with (S (i - S k)) by lia.
      + intros [Hk Hn]. destruct (Nat.eq_dec i k) as [->|Hne].
        * left. rewrite Nat.sub_diag in Hn. simpl in Hn. congruence.
        * right. split; [lia|].
          now replace (i - k)%nat with (S (i - S k)) in Hn by lia. }
  rewrite H, Nat.sub_0_r. split; [tauto | intros; split; [lia | auto]].
Qed.

Lemma collect_all_ok w host c :
  Forall (fun f => exists o, probe_result w host f o) c ->
  forall h t opens closed,
    collect_all w host c (report_dict h t opens closed)
    = Ok (report_dict h t
            (opens ++ filter status_is_open (map (outcome_of w host) c))
            (closed
             + Z.of_nat (length (filter is_closed
                                   (map (outcome_of w host) c))))).
Proof.
  induction 1 as [|[i port] rest [o Ho] _ IH]; intros h t opens closed; simpl.
  - now rewrite app_nil_r, Z.add_0_r.
  - unfold probe_result in Ho. simpl in Ho.
    assert (Hout : outcome_of w host (i, port) = o)
      by (unfold outcome_of; simpl; now rewrite Ho).
    cbn [map filter]. rewrite Hout, Ho. cbn [bind].
    unfold is_closed at 1.
    destruct (status_is_open o) eqn:Eo; cbn [negb].
    + rewrite (collect_open _ _ _ _ _ Eo), IH, <- app_assoc. reflexivity.
    + rewrite (collect_closed _ _ _ _ _ Eo), IH. cbn [length].
      do 2 f_equal. lia.
Qed.

Lemma collect_all_returns w host c results r :
  collect_all w host c results = Ok r ->
  Forall (fun f => exists o, probe_result w host f o) c.
Proof.
  revert results. induction c as [|[i port] rest IH]; intros results; simpl.
  - constructor.
  - destruct (scan_port (net w i) host port default_timeout) as [o|e] eqn:E;
      simpl; [|discriminate].
    intros H. constructor; [exists o; exact E | eapply IH; exact H].
Qed.

Lemma collect_all_raises w host c results e :
  collect_all w host c results = Raise e ->
  exists f, In f c
            /\ scan_port (net w (fst f)) host (snd f) default_timeout = Raise e.
Proof.
  revert results. induction c as [|[i port] rest IH]; intros results; simpl.
  - discriminate.
  - destruct (scan_port (net w i) host port default_timeout) as [o|e'] eqn:E;
      simpl.
    + intros H. destruct (IH _ H) as (f & Hin & Hf). exists f. auto.
    + intros [= <-]. exists (i, port). auto.
Qed.

Lemma scan_host_done_perm w host ports threads :
  0 < threads ->
  exists completed,
    Permutation completed (futures_of (ports_or_default ports))
    /\ probed (scan_host w host ports threads)
       = map (fun f => (host, snd f)) completed
    /\ returned (scan_host w host ports threads)
       = (r <- collect_all w host completed (new_results host (now w)) ;;
          Ok (PyDict r)).
Proof.
  intros Hpos. rewrite (scan_host_positive _ _ _ _ Hpos). cbv zeta.
  eexists. split; [|split; reflexivity].
  apply DrainFacts.run_to_end_done. lia.
Qed.

Lemma scan_host_completes_witness :
  exists report,
    returned (scan_host example_world "127.0.0.1" (Some [8080; 9999; 9000]) 4)
    = Ok report.
Proof.
  apply (scan_host_completes example_world "127.0.0.1"
           (Some [8080; 9999; 9000]) 4).
  - lia.
  - repeat constructor; simpl; lia.
  - intros i. reflexivity.
Defined.

Lemma open_outcome_of w host f :
  (exists o, probe_result w host f o) ->
  status_is_open (outcome_of w host f) = true ->
  outcome_of w host f
  = open_outcome (snd f) (COMMON_PORTS_get (snd f) "Unknown").
Proof.
  intros [o Ho]. unfold outcome_of. unfold probe_result in Ho. rewrite Ho.
  destruct (scan_port_shape _ _ _ _ _ Ho) as [-> | ->]; [reflexivity|].
  discriminate.
Qed.

(** X5. The report [scan_host] returns echoes the host it was given and the
    time read at the start, and every entry of ['open_ports'] is the open
    outcome of one of the requested ports, with the service name the table
    gives for that port; ['closed_ports'] is not negative. *)
Theorem scan_report_contents w host ports threads report :
  returned (scan_host w host ports threads) = Ok report ->
  exists opens closed,
    report = PyDict (report_dict host (now w) opens closed)
    /\ 0 <= closed
    /\ Forall (fun o => exists port,
                 In port (ports_or_default ports)
                 /\ o = open_outcome port (COMMON_PORTS_get port "Unknown"))
              opens.
Proof.
  intros Hret.
  pose proof (scan_host_returned_positive _ _ _ _ _ Hret) as Hpos.
  destruct (scan_host_done_perm w host ports threads Hpos)
    as (c & Hperm & _ & Hr).
  rewrite Hr in Hret.
  destruct (collect_all w host c (new_results host (now w))) as [r|] eqn:E;
    [|discriminate].
  injection Hret as <-.
  pose proof (collect_all_returns _ _ _ _ _ E) as Hall.
  unfold new_results in E. rewrite (collect_all_ok _ _ _ Hall) in E.
  injection E as <-. do 2 eexists. split; [reflexivity|]. split; [lia|].
  simpl app. apply Forall_forall. intros o Ho.
  apply filter_In in Ho. destruct Ho as [Ho Hopen].
  apply in_map_iff in Ho. destruct Ho as ([i port] & <- & Hf).
  exists port. split.
  - apply (Permutation_in _ Hperm) in Hf. apply in_futures_of in Hf.
    eapply nth_error_In. exact Hf.
  - rewrite Forall_forall in Hall.
    apply (open_outcome_of w host (i, port) (Hall _ Hf) Hopen).
Qed.

Lemma scan_report_contents_witness :
  exists opens closed,
    example_report
    = PyDict (report_dict "127.0.0.1" (now example_world) opens closed)
    /\ 0 <= closed
    /\ Forall (fun o => exists port,
                 In port [8080; 9999; 9000]
                 /\ o = open_outcome port (COMMON_PORTS_get port "Unknown"))
              opens.
Proof.
  apply (scan_report_contents example_world "127.0.0.1"
           (Some [8080; 9999; 9000]) 50).
  vm_compute. reflexivity.
Defined.

(** X6. With a positive pool size [scan_host] raises exactly when the
    probe of one of its ports raises, and what it raises is the exception
    of such a probe. Every port has been probed all the same. *)
Theorem scan_host_raises_iff_a_probe_raises w host ports threads :
  0 < threads ->
  (forall e,
      returned (scan_host w host ports threads) = Raise e ->
      exists i port,
        nth_error (ports_or_default ports) i = Some port
        /\ scan_port (net w i) host port default_timeout = Raise e)
  /\ ((exists i port e,
          nth_error (ports_or_default ports) i = Some port
          /\ scan_port (net w i) host port default_timeout = Raise e) ->
      exists e', returned (scan_host w host ports threads) = Raise e')
  /\ Permutation (probed (scan_host w host ports threads))
                 (map (fun p => (host, p)) (ports_or_default ports)).
Proof.
  intros Hpos.
  destruct (scan_host_done_perm w host ports threads Hpos)
    as (c & Hperm & Hp & Hr).
  split; [|split].
  - intros e He. rewrite Hr in He.
    destruct (collect_all w host c (new_results host (now w))) as [r|e0] eqn:E;
      [discriminate|].
    injection He as ->.
    destruct (collect_all_raises _ _ _ _ _ E) as ([i port] & Hin & Hf).
    exists i, port. split; [|exact Hf].
    apply in_futures_of. exact (Permutation_in _ Hperm Hin).
  - intros (i & port & e & Hn & Hf). rewrite Hr.
    destruct (collect_all w host c (new_results host (now w))) as [r|e0] eqn:E;
      [|eexists; reflexivity].
    exfalso. pose proof (collect_all_returns _ _ _ _ _ E) as Hall.
    rewrite Forall_forall in Hall.
    apply in_futures_of in Hn.
    apply (Permutation_in _ (Permutation_sym Hperm)) in Hn.
    destruct (Hall _ Hn) as [o Ho]. unfold probe_result in Ho. simpl in Ho.
    congruence.
  - now apply scan_host_probes_each_port.
Qed.

Lemma scan_host_raises_iff_a_probe_raises_witness :
  (forall e,
      returned (scan_host example_world "127.0.0.1" (Some [80; 70000]) 2)
      = Raise e ->
      exists i port,
        nth_error [80; 70000] i = Some port
        /\ scan_port (net example_world i) "127.0.0.1" port default_timeout
           = Raise e)
  /\ ((exists i port e,
          nth_error [80; 70000] i = Some port
          /\ scan_port (net example_world i) "127.0.0.1" port default_timeout
             = Raise e) ->
      exists e',
        returned (scan_host example_world "127.0.0.1" (Some [80; 70000]) 2)
        = Raise e')
  /\ Permutation
       (probed (scan_host example_world "127.0.0.1" (Some [80; 70000]) 2))
       [("127.0.0.1", 80); ("127.0.0.1", 70000)].
Proof.
  apply (scan_host_raises_iff_a_probe_raises example_world "127.0.0.1"
           (Some [80; 70000]) 2).
  lia.
Defined.

Lemma filter_perm {A} (p : A -> bool) (l l' : list A) :
  Permutation l l' -> Permutation (filter p l) (filter p l').
Proof.
  induction 1 as [|x l l' _ IH|x y l|l l' l'' _ IH1 _ IH2]; simpl.
  - constructor.
  - destruct (p x); [constructor|]; exact IH.
  - destruct (p x), (p y); try reflexivity. apply perm_swap.
  - now transitivity (filter p l').
Qed.

Lemma outcome_of_same_net w1 w2 host f :
  (forall i, net w1 i = net w2 i) ->
  outcome_of w1 host f = outcome_of w2 host f
  /\ ((exists o, probe_result w1 host f o) ->
      exists o, probe_result w2 host f o).
Proof.
  intros Hnet. unfold outcome_of, probe_result. rewrite (Hnet (fst f)). auto.
Qed.

(** X7. The interleaving of the threads and the size of the pool change
    nothing but the order of ['open_ports']: when one run over a network
    returns a report, any other run over the same network, with any
    schedule and any positive pool size, returns a report with the same
    host, time and ['closed_ports'] and the same open outcomes in some
    order. *)
Theorem scan_report_independent_of_schedule w1 w2 host ports t1 t2 report :
  now w1 = now w2 -> (forall i, net w1 i = net w2 i) -> 0 < t2 ->
  returned (scan_host w1 host ports t1) = Ok report ->
  exists opens1 opens2 closed,
    report = PyDict (report_dict host (now w1) opens1 closed)
    /\ returned (scan_host w2 host ports t2)
       = Ok (PyDict (report_dict host (now w1) opens2 closed))
    /\ Permutation opens1 opens2.
Proof.
  intros Hnow Hnet Hpos2 Hret.
  pose proof (scan_host_returned_positive _ _ _ _ _ Hret) as Hpos1.
  destruct (scan_host_done_perm w1 host ports t1 Hpos1)
    as (c1 & Hperm1 & _ & Hr1).
  destruct (scan_host_done_perm w2 host ports t2 Hpos2)
    as (c2 & Hperm2 & _ & Hr2).
  rewrite Hr1 in Hret. rewrite Hr2. clear Hr1 Hr2.
  destruct (collect_all w1 host c1 (new_results host (now w1))) as [r|] eqn:E;
    [|discriminate].
  injection Hret as <-.
  pose proof (collect_all_returns _ _ _ _ _ E) as Hall1.
  unfold new_results in *. rewrite (collect_all_ok _ _ _ Hall1) in E.
  injection E as <-.
  assert (Hperm : Permutation c1 c2)
    by (rewrite Hperm1; symmetry; exact Hperm2).
  assert (Hall2 : Forall (fun f => exists o, probe_result w2 host f o) c2).
  { apply (Permutation_Forall Hperm). revert Hall1. apply Forall_impl.
    intros f. apply (outcome_of_same_net w1 w2 host f Hnet). }
  rewrite <- Hnow, (collect_all_ok _ _ _ Hall2). simpl bind.
  assert (Hmap : Permutation (map (outcome_of w1 host) c1)
                             (map (outcome_of w2 host) c2)).
  { rewrite (map_ext (outcome_of w2 host) (outcome_of w1 host)).
    - now apply Permutation_map.
    - intros f. symmetry. apply (outcome_of_same_net w1 w2 host f Hnet). }
  do 3 eexists. split; [reflexivity|]. split.
  - rewrite <- (Permutation_length (filter_perm is_closed _ _ Hmap)).
    reflexivity.
  - simpl. now apply filter_perm.
Qed.

Lemma scan_report_independent_of_schedule_witness :
  exists opens1 opens2 closed,
    example_report
    = PyDict (report_dict "127.0.0.1" (now example_world) opens1 closed)
    /\ returned (scan_host
                   {| now := now example_world; net := net example_world;
                      sched := [];
                      write_error := write_error example_world |}
                   "127.0.0.1" (Some [8080; 9999; 9000]) 1)
       = Ok (PyDict (report_dict "127.0.0.1" (now example_world) opens2 closed))
    /\ Permutation opens1 opens2.
Proof.
  apply (scan_report_independent_of_schedule example_world
           {| now := now example_world; net := net example_world;
              sched := []; write_error := write_error example_world |}
           "127.0.0.1" (Some [8080; 9999; 9000]) 50 1).
  - reflexivity.
  - reflexivity.
  - lia.
  - vm_compute. reflexivity.
Defined.

(** ** The port argument, continued *)

Module StrFacts.
Import Str.

Lemma contains_In c s :
  contains c s = true <-> In c (list_ascii_of_string s).
Proof.
  induction s as [|c' s IH]; simpl.
  - split; [discriminate | tauto].
  - rewrite orb_true_iff, IH, Ascii.eqb_eq. split; intros [H|H]; auto.
Qed.

Lemma lstrip_In c l : In c (lstrip l) -> In c l.
Proof.
  induction l as [|x l IH]; simpl; [tauto|].
  destruct (is_space x); simpl; auto.
Qed.

Lemma strip_In c l : In c (strip l) -> In c l.
Proof.
  unfold strip. intros H. apply in_rev, lstrip_In, in_rev in H.
  now apply lstrip_In.
Qed.

Lemma lstrip_keeps c l : is_space c = false -> In c l -> In c (lstrip l).
Proof.
  intros Hc. induction l as [|x l IH]; simpl; [tauto|].
  destruct (is_space x) eqn:E; simpl; auto.
  intros [->|H]; [congruence | auto].
Qed.

Lemma strip_keeps c l : is_space c = false -> In c l -> In c (strip l).
Proof.
  intros Hc H. unfold strip. apply in_rev. rewrite rev_involutive.
  apply (lstrip_keeps _ _ Hc). apply in_rev. rewrite rev_involutive.
  now apply lstrip_keeps.
Qed.

Lemma strip_plain l : Forall (fun c => is_space c = false) l -> strip l = l.
Proof.
  assert (H : forall l', Forall (fun c => is_space c = false) l' ->
                         lstrip l' = l').
  { intros [|x l'] Hl; [reflexivity|]. simpl.
    inversion Hl as [|? ? Hx _]; subst. now rewrite Hx. }
  intros Hl. unfold strip. rewrite (H l Hl), (H (rev l)).
  - apply rev_involutive.
  - now apply Forall_rev.
Qed.

Lemma digit_val_nonneg c : is_digit c = true -> 0 <= digit_val c.
Proof.
  unfold is_digit, digit_val. intros H. apply andb_true_iff in H.
  destruct H as [H _]. apply Nat.leb_le in H. lia.
Qed.

Lemma digits_value_spec s :
  forall acc prev z,
    digits_value acc prev s = Some z -> 0 <= acc ->
    0 <= z /\ Forall (fun c => is_digit c = true \/ c = "_"%char) s.
Proof.
  induction s as [|c s IH]; intros acc prev z; cbn [digits_value].
  - destruct prev; [discriminate|]. intros [= <-] Ha. auto.
  - destruct (is_digit c) eqn:Ed.
    + intros H Ha. pose proof (digit_val_nonneg c Ed).
      destruct (IH _ _ _ H) as [Hz Hall]; [lia|]. auto.
    + destruct (Ascii.eqb_spec c "_"%char) as [->|Hne]; [|discriminate].
      destruct prev; [discriminate|]. intros H Ha.
      destruct (IH _ _ _ H Ha) as [Hz Hall]. auto.
Qed.

Lemma unsigned_value_spec s z :
  unsigned_value s = Some z ->
  0 <= z /\ Forall (fun c => is_digit c = true \/ c = "_"%char) s.
Proof.
  unfold unsigned_value. destruct s as [|c s]; [discriminate|].
  destruct (is_digit c); [|discriminate].
  intros H. apply (digits_value_spec _ _ _ _ H). lia.
Qed.

(** What [int] returns is the value of the numeral, and the numeral is
    within the limit on digits. *)
Lemma py_int_ok s z :
  py_int s = Ok z ->
  (let body := strip (list_ascii_of_string s) in
   match
     match body with
     | "-"%char :: rest => option_map Z.opp (unsigned_value rest)
     | "+"%char :: rest => unsigned_value rest
     | _ => unsigned_value body
     end
   with
   | Some z' => Ok z'
   | None => Raise ValueError
   end) = Ok z
  /\ count_digits (strip (list_ascii_of_string s)) <= max_str_digits.
Proof.
  unfold py_int. cbv zeta.
  match goal with
  | |- (match ?x with Some _ => _ | None => _ end = _) -> _ =>
      destruct x as [z'|]
  end; [|discriminate].
  destruct (Z.ltb_spec max_str_digits
              (count_digits (strip (list_ascii_of_string s))));
    [discriminate|]. auto.
Qed.

(** What [int] accepts is made of digits, underscores, white space and at
    most a sign. *)
Lemma py_int_chars s z c :
  py_int s = Ok z -> In c (list_ascii_of_string s) ->
  is_digit c = true \/ c = "_"%char \/ is_space c = true
  \/ c = "-"%char \/ c = "+"%char.
Proof.
  intros H Hin. apply py_int_ok in H. destruct H as [H _]. cbv zeta in H.
  destruct (is_space c) eqn:Es; [auto|].
  apply (strip_keeps _ _ Es) in Hin.
  set (body := strip (list_ascii_of_string s)) in *.
  assert (Hu : forall l z', unsigned_value l = Some z' -> In c l ->
                            is_digit c = true \/ c = "_"%char).
  { intros l z' Hl Hc. destruct (unsigned_value_spec _ _ Hl) as [_ Hall].
    rewrite Forall_forall in Hall. auto. }
  destruct body as [|x rest]; [contradiction|].
  destruct (Ascii.eqb_spec x "-"%char) as [->|Hm].
  - destruct (unsigned_value rest) as [u|] eqn:E; [|discriminate].
    destruct Hin as [<-|Hin]; [auto|]. destruct (Hu _ _ E Hin); auto.
  - destruct (Ascii.eqb_spec x "+"%char) as [->|Hp].
    + destruct (unsigned_value rest) as [u|] eqn:E; [|discriminate].
      destruct Hin as [<-|Hin]; [auto 6|]. destruct (Hu _ _ E Hin); auto.
    + assert (E : exists u, unsigned_value (x :: rest) = Some u).
      { revert H Hm Hp. clear.
        destruct x as [[] [] [] [] [] [] [] []];
          try (intros; exfalso; congruence);
          (destruct (unsigned_value _) as [u|]; [eauto | discriminate]). }
      destruct E as [u E]. destruct (Hu _ _ E Hin); auto.
Qed.

Lemma py_int_nonneg s z :
  py_int s = Ok z -> contains "-" s = false -> 0 <= z.
Proof.
  intros H Hc. apply py_int_ok in H. destruct H as [H _]. cbv zeta in H.
  assert (Hno : ~ In "-"%char (strip (list_ascii_of_string s))).
  { intros Hin. apply strip_In, contains_In in Hin. congruence. }
  set (body := strip (list_ascii_of_string s)) in *.
  destruct body as [|x rest]; [discriminate|].
  destruct (Ascii.eqb_spec x "-"%char) as [->|Hm]; [exfalso; apply Hno; now left|].
  destruct (Ascii.eqb_spec x "+"%char) as [->|Hp].
  - destruct (unsigned_value rest) as [u|] eqn:E; [|discriminate].
    injection H as <-. apply (unsigned_value_spec _ _ E).
  - assert (E : unsigned_value (x :: rest) = Some z).
    { revert H Hm Hp. clear.
      destruct x as [[] [] [] [] [] [] [] []];
        try (intros; exfalso; congruence);
        (destruct (unsigned_value _) as [u|]; [intros [= <-]; reflexivity
                                              | discriminate]). }
    apply (unsigned_value_spec _ _ E).
Qed.

Lemma py_int_no_comma s z : py_int s = Ok z -> contains "," s = false.
Proof.
  intros H. destruct (contains "," s) eqn:E; [|reflexivity].
  apply contains_In in E.
  destruct (py_int_chars _ _ _ H E) as [D|[D|[D|[D|D]]]]; discriminate D.
Qed.

(** *** Splitting *)

Lemma split_nonempty sep s : split sep s <> [].
Proof.
  destruct s as [|c s]; simpl; [discriminate|].
  destruct (Ascii.eqb c sep); [discriminate|].
  destruct (split sep s); discriminate.
Qed.

Lemma split_tokens_clean sep s :
  Forall (fun t => contains sep t = false) (split sep s).
Proof.
  induction s as [|c s IH]; simpl.
  - repeat constructor.
  - destruct (Ascii.eqb c sep) eqn:E.
    + constructor; [reflexivity | exact IH].
    + destruct (split sep s) as [|t ts]; [repeat constructor; simpl|].
      * now rewrite Ascii.eqb_sym, E.
      * inversion IH as [|? ? Ht Hts]; subst. constructor; [|exact Hts].
        simpl. now rewrite Ascii.eqb_sym, E.
Qed.

Lemma contains_split c sep s :
  c <> sep ->
  contains c s = existsb (contains c) (split sep s).
Proof.
  intros Hne. induction s as [|x s IH]; simpl; [reflexivity|].
  destruct (Ascii.eqb_spec x sep) as [->|Hx].
  - simpl. rewrite <- IH.
    destruct (Ascii.eqb_spec c sep); [contradiction | reflexivity].
  - pose proof (split_nonempty sep s) as Hs.
    destruct (split sep s) as [|t ts]; [contradiction|].
    simpl in *. rewrite IH. now rewrite orb_assoc.
Qed.

Lemma split_app sep t s :
  contains sep t = false ->
  split sep (t ++ String sep s)%string = t :: split sep s.
Proof.
  induction t as [|c t IH]; simpl.
  - now rewrite Ascii.eqb_refl.
  - intros H. apply orb_false_iff in H. destruct H as [Hc Ht].
    rewrite Ascii.eqb_sym, Hc, (IH Ht). reflexivity.
Qed.

Lemma split_join sep toks :
  toks <> [] -> Forall (fun t => contains sep t = false) toks ->
  split sep (py_join (String sep EmptyString) toks) = toks.
Proof.
  induction toks as [|t [|t' rest] IH]; [congruence| |]; intros _ H.
  - simpl. inversion H; subst. now apply split_without_sep.
  - inversion H as [|? ? Ht Hrest]; subst.
    change (py_join (String sep EmptyString) (t :: t' :: rest))
      with (t ++ String sep (py_join (String sep EmptyString) (t' :: rest)))%string.
    rewrite (split_app _ _ _ Ht), IH; [reflexivity | discriminate | exact Hrest].
Qed.

Lemma contains_app c s1 s2 :
  contains c (s1 ++ s2)%string = contains c s1 || contains c s2.
Proof.
  induction s1 as [|x s1 IH]; simpl; [reflexivity|].
  now rewrite IH, orb_assoc.
Qed.

Lemma contains_join c sep toks :
  contains c sep = false -> Forall (fun t => contains c t = false) toks ->
  contains c (py_join sep toks) = false.
Proof.
  intros Hsep. induction toks as [|t [|t' rest] IH]; intros H.
  - reflexivity.
  - now inversion H.
  - inversion H as [|? ? Ht Hrest]; subst.
    change (py_join sep (t :: t' :: rest))
      with (t ++ sep ++ py_join sep (t' :: rest))%string.
    rewrite !contains_app, Ht, Hsep, (IH Hrest). reflexivity.
Qed.

End StrFacts.

Lemma map_result_inv l :
  forall zs, map_result Str.py_int l = Ok zs ->
             Forall2 (fun tok z => Str.py_int tok = Ok z) l zs.
Proof.
  induction l as [|x l IH]; simpl; intros zs.
  - intros [= <-]. constructor.
  - destruct (Str.py_int x) as [z|] eqn:E; simpl; [|discriminate].
    destruct (map_result Str.py_int l) as [ys|] eqn:E'; simpl; [|discriminate].
    intros [= <-]. constructor; auto.
Qed.

Lemma py_range_In a b p : In p (py_range a b) <-> a <= p < b.
Proof.
  unfold py_range. rewrite in_map_iff. split.
  - intros (i & <- & Hi). apply in_seq in Hi. lia.
  - intros H. exists (Z.to_nat (p - a)). split; [lia|]. apply in_seq. lia.
Qed.

Lemma py_range_sorted a b : Sorted.StronglySorted Z.lt (py_range a b).
Proof.
  unfold py_range. generalize (Z.to_nat (b - a)) as n. intros n.
  assert (H : forall k, Sorted.StronglySorted Z.lt
                          (map (fun i => a + Z.of_nat i) (seq k n))).
  { induction n as [|n IH]; intros k; simpl; constructor; [apply IH|].
    apply Forall_forall. intros x Hx. apply in_map_iff in Hx.
    destruct Hx as (i & <- & Hi). apply in_seq in Hi. lia. }
  apply H.
Qed.

Lemma py_list_range_ok a b l :
  py_list_range a b = Ok l -> l = py_range a b /\ b - a <= ssize_max.
Proof.
  unfold py_list_range.
  destruct (Z.ltb_spec ssize_max (b - a)); [discriminate|].
  intros [= <-]. auto.
Qed.

Lemma parse_ports_range_inv s l :
  Str.contains "-" s = true ->
  parse_ports (Some s) = Ok (Some l) ->
  exists t1 t2 start end_,
    Str.split "-" s = [t1; t2]
    /\ Str.py_int t1 = Ok start /\ Str.py_int t2 = Ok end_
    /\ l = py_range start (end_ + 1).
Proof.
  intros Hc. destruct s as [|c s]; [discriminate|].
  set (str := String c s) in *. unfold parse_ports. fold str. rewrite Hc.
  destruct (Str.split "-" str) as [|t1 [|t2 [|? ?]]]; try discriminate.
  destruct (Str.py_int t1) as [start|] eqn:E1; [|discriminate].
  destruct (Str.py_int t2) as [end_|] eqn:E2; [|discriminate].
  cbn [bind].
  destruct (py_list_range start (end_ + 1)) as [l'|] eqn:El; [|discriminate].
  intros [= <-]. apply py_list_range_ok in El. destruct El as [-> _].
  exists t1, t2, start, end_. auto.
Qed.

(** X8. When a range argument resolves, it was written with exactly two
    numerals [a-b], and the list is the integers from [a] to [b], both
    included, each once, in ascending order; it is empty when [b < a]. *)
Theorem range_argument_contents s l :
  Str.contains "-" s = true ->
  parse_ports (Some s) = Ok (Some l) ->
  exists t1 t2 start end_,
    Str.split "-" s = [t1; t2]
    /\ Str.py_int t1 = Ok start /\ Str.py_int t2 = Ok end_
    /\ (forall p, In p l <-> start <= p <= end_)
    /\ Sorted.StronglySorted Z.lt l
    /\ length l = Z.to_nat (end_ - start + 1).
Proof.
  intros Hc Hp.
  destruct (parse_ports_range_inv s l Hc Hp)
    as (t1 & t2 & start & end_ & Hs & H1 & H2 & ->).
  exists t1, t2, start, end_. repeat (split; [assumption|]).
  split; [|split].
  - intros p. rewrite py_range_In. lia.
  - apply py_range_sorted.
  - unfold py_range. rewrite length_map, length_seq. f_equal. lia.
Qed.

Lemma range_argument_contents_witness :
  exists t1 t2 start end_,
    Str.split "-" "20-22" = [t1; t2]
    /\ Str.py_int t1 = Ok start /\ Str.py_int t2 = Ok end_
    /\ (forall p, In p [20; 21; 22] <-> start <= p <= end_)
    /\ Sorted.StronglySorted Z.lt [20; 21; 22]
    /\ length [20; 21; 22] = Z.to_nat (end_ - start + 1).
Proof.
  apply (range_argument_contents "20-22" [20; 21; 22]); reflexivity.
Defined.

Lemma parse_ports_nonneg arg r :
  parse_ports arg = Ok r ->
  Forall (fun p => 0 <= p) (ports_or_default r).
Proof.
  assert (Hkeys : Forall (fun p => 0 <= p) COMMON_PORTS_keys).
  { unfold COMMON_PORTS_keys. simpl.
    repeat (apply Forall_cons; [lia|]). apply Forall_nil. }
  destruct arg as [s|]; [|intros [= <-]; exact Hkeys].
  destruct s as [|c s]; [intros [= <-]; exact Hkeys|]. clear Hkeys.
  set (str := String c s). unfold parse_ports. fold str.
  destruct (Str.contains "-" str) eqn:Hc.
  - pose proof (StrFacts.split_tokens_clean "-" str) as Hclean.
    destruct (Str.split "-" str) as [|a [|b [|? ?]]]; try discriminate.
    destruct (Str.py_int a) as [start|] eqn:Ea; [|discriminate].
    destruct (Str.py_int b) as [end_|] eqn:Eb; [|discriminate].
    cbn [bind].
    destruct (py_list_range start (end_ + 1)) as [l|] eqn:El; [|discriminate].
    apply py_list_range_ok in El. destruct El as [-> _].
    intros [= <-]. simpl ports_or_default.
    inversion Hclean as [|? ? Ha _]; subst.
    pose proof (StrFacts.py_int_nonneg _ _ Ea Ha) as Hs.
    apply Forall_forall. intros p Hp. apply py_range_In in Hp. lia.
  - destruct (map_result Str.py_int (Str.split "," str)) as [zs|] eqn:E;
      [|discriminate].
    intros [= <-]. simpl ports_or_default.
    apply map_result_inv in E.
    assert (Htok : Forall (fun t => Str.contains "-" t = false)
                          (Str.split "," str)).
    { apply Forall_forall. intros t Ht.
      destruct (Str.contains "-" t) eqn:Et; [|reflexivity].
      rewrite (StrFacts.contains_split "-" "," str) in Hc by discriminate.
      assert (existsb (Str.contains "-") (Str.split "," str) = true)
        by (apply existsb_exists; eauto).
      congruence. }
    revert Htok. induction E as [|tok z toks zs Hz _ IH]; intros Htok.
    + constructor.
    + inversion Htok; subst. constructor; [|auto].
      eapply StrFacts.py_int_nonneg; eauto.
Qed.

(** X9. No port argument resolves to a negative port: every port [main]
    hands to [scan_host], the default ones included, is 0 or more. *)
Theorem resolved_ports_not_negative arg r :
  parse_ports arg = Ok r ->
  Forall (fun p => 0 <= p) (ports_or_default r).
Proof. exact (parse_ports_nonneg arg r). Qed.

Lemma resolved_ports_not_negative_witness :
  Forall (fun p => 0 <= p) [0; 80; 70000].
Proof.
  apply (resolved_ports_not_negative (Some "0,80,70000") (Some [0; 80; 70000])).
  reflexivity.
Defined.

(** X10. A list and a range cannot be combined: every argument that holds
    both a comma and a hyphen makes [main] raise [ValueError] before any
    probe runs. *)
Theorem list_and_range_do_not_mix w a s :
  ports a = Some s ->
  Str.contains "," s = true -> Str.contains "-" s = true ->
  main w a = {| main_probed := []; main_written := None;
                main_returned := Raise ValueError |}.
Proof.
  intros Hp Hcomma Hhyphen. apply main_parse_error. rewrite Hp.
  destruct s as [|c s]; [discriminate|].
  set (str := String c s) in *. unfold parse_ports. fold str.
  rewrite Hhyphen.
  rewrite (StrFacts.contains_split "," "-" str) in Hcomma by discriminate.
  destruct (Str.split "-" str) as [|t1 [|t2 [|? ?]]]; try reflexivity.
  simpl in Hcomma. rewrite orb_false_r in Hcomma.
  destruct (Str.py_int t1) as [start|e1] eqn:E1; simpl.
  - destruct (Str.py_int t2) as [end_|e2] eqn:E2; simpl.
    + apply StrFacts.py_int_no_comma in E1, E2.
      rewrite E1, E2 in Hcomma. discriminate.
    + now rewrite (py_int_raises _ _ E2).
  - now rewrite (py_int_raises _ _ E1).
Qed.

Lemma list_and_range_do_not_mix_witness :
  main example_world (example_args (Some "20-25,80"))
  = {| main_probed := []; main_written := None;
       main_returned := Raise ValueError |}.
Proof.
  apply (list_and_range_do_not_mix example_world
           (example_args (Some "20-25,80")) "20-25,80");
    reflexivity.
Defined.

(** *** Decimal texts *)

Module DecimalText.
Import Str.

Ltac digit_step IH :=
  cbn [Json.uint_chars digits_value Pos.of_uint_acc Pos.of_uint];
  match goal with
  | |- context [is_digit ?c] => change (is_digit c) with true
  end;
  cbv iota; rewrite <- IH; f_equal; unfold digit_val;
  match goal with
  | |- context [Z.of_nat (nat_of_ascii ?c)] =>
      let z := eval vm_compute in (Z.of_nat (nat_of_ascii c)) in
      change (Z.of_nat (nat_of_ascii c)) with z
  end;
  lia.

Lemma digits_value_acc u :
  forall a, digits_value (Z.pos a) false (Json.uint_chars u)
            = Some (Z.pos (Pos.of_uint_acc u a)).
Proof.
  induction u as [|u IH|u IH|u IH|u IH|u IH|u IH|u IH|u IH|u IH|u IH];
    intros a; [reflexivity | digit_step IH ..].
Qed.

Lemma digits_value_uint u :
  digits_value 0 false (Json.uint_chars u) = Some (Z.of_N (Pos.of_uint u)).
Proof.
  induction u as [|u IH|u|u|u|u|u|u|u|u|u];
    [reflexivity | exact IH | apply digits_value_acc ..].
Qed.

Lemma uint_chars_digits u :
  Forall (fun c => is_digit c = true) (Json.uint_chars u).
Proof. induction u; simpl; constructor; auto. Qed.

Lemma encode_int_digits z :
  0 <= z -> Forall (fun c => is_digit c = true) (Json.encode_int z).
Proof.
  destruct z as [|p|p]; intros H; simpl.
  - repeat constructor.
  - apply uint_chars_digits.
  - lia.
Qed.

Lemma digit_not_space c : is_digit c = true -> is_space c = false.
Proof. destruct c as [[] [] [] [] [] [] [] []]; vm_compute; congruence. Qed.

Lemma count_digits_all l :
  Forall (fun c => is_digit c = true) l ->
  count_digits l = Z.of_nat (length l).
Proof.
  intros H. unfold count_digits. f_equal. f_equal.
  induction H as [|c l Hc _ IH]; simpl; [reflexivity|].
  now rewrite Hc, IH.
Qed.

Lemma py_int_digits l :
  l <> [] -> Forall (fun c => is_digit c = true) l ->
  Z.of_nat (length l) <= max_str_digits ->
  py_int (string_of_list_ascii l)
  = match digits_value 0 false l with
    | Some z => Ok z
    | None => Raise ValueError
    end.
Proof.
  intros Hne Hall Hlen. unfold py_int.
  rewrite list_ascii_of_string_of_list_ascii, StrFacts.strip_plain.
  - cbv zeta. rewrite (count_digits_all l Hall).
    destruct (Z.ltb_spec max_str_digits (Z.of_nat (length l))); [lia|].
    destruct l as [|c t]; [congruence|].
    inversion Hall as [|? ? Hc _]; subst.
    assert (Hm : c <> "-"%char) by (intros ->; discriminate Hc).
    assert (Hp : c <> "+"%char) by (intros ->; discriminate Hc).
    replace (digits_value 0 false (c :: t)) with (unsigned_value (c :: t))
      by (unfold unsigned_value; now rewrite Hc).
    generalize (unsigned_value (c :: t)). generalize (unsigned_value t).
    intros o1 o2. revert Hm Hp. clear.
    destruct c as [[] [] [] [] [] [] [] []]; intros Hm Hp;
      try reflexivity; exfalso; congruence.
  - revert Hall. apply Forall_impl. exact digit_not_space.
Qed.

Lemma length_string_of_list l :
  String.length (string_of_list_ascii l) = length l.
Proof. induction l as [|c l IH]; simpl; [reflexivity | now rewrite IH]. Qed.

(** [int(str(z)) == z] for every [z] that is not negative and within the
    limit on digits. *)
Lemma py_int_of_str z :
  0 <= z -> within_digit_limit z -> py_int (py_str_of_int z) = Ok z.
Proof.
  intros Hz Hlim. unfold within_digit_limit, py_str_of_int in *.
  rewrite length_string_of_list in Hlim.
  destruct z as [|p|p]; [reflexivity | | lia].
  rewrite py_int_digits.
  - simpl Json.encode_int. rewrite digits_value_uint.
    now rewrite DecimalPos.Unsigned.of_to.
  - simpl. destruct (JsonFacts.uint_chars_head p) as (c & t & -> & _).
    discriminate.
  - now apply encode_int_digits.
  - exact Hlim.
Qed.

Lemma str_of_int_clean c z :
  0 <= z -> Str.is_digit c = false ->
  Str.contains c (py_str_of_int z) = false.
Proof.
  intros Hz Hc. destruct (Str.contains c (py_str_of_int z)) eqn:E;
    [|reflexivity].
  apply StrFacts.contains_In in E. unfold py_str_of_int in E.
  rewrite list_ascii_of_string_of_list_ascii in E.
  pose proof (encode_int_digits z Hz) as Hall.
  rewrite Forall_forall in Hall. rewrite (Hall _ E) in Hc. discriminate.
Qed.

End DecimalText.

(** X11. Writing a non-empty list of non-negative integers in decimal,
    separated by commas, and passing the text as the port argument resolves
    to that very list: same numbers, same order, repetitions kept. The
    numerals are within the limit on digits. *)
Theorem port_list_round_trip zs :
  zs <> [] -> Forall (fun z => 0 <= z /\ within_digit_limit z) zs ->
  parse_ports (Some (py_join "," (map py_str_of_int zs))) = Ok (Some zs).
Proof.
  intros Hne Hall.
  set (toks := map py_str_of_int zs).
  assert (Htoks : toks <> []) by (destruct zs; [congruence | discriminate]).
  assert (Hclean : forall c, Str.is_digit c = false ->
                             Forall (fun t => Str.contains c t = false) toks).
  { intros c Hc. unfold toks. apply Forall_map. revert Hall.
    apply Forall_impl. intros z [Hz _].
    now apply DecimalText.str_of_int_clean. }
  assert (Hsplit : Str.split "," (py_join "," toks) = toks)
    by (apply StrFacts.split_join; [exact Htoks | now apply Hclean]).
  assert (Hs : py_join "," toks <> EmptyString).
  { intros E. rewrite E in Hsplit. simpl in Hsplit.
    destruct zs as [|z zs']; [congruence|]. unfold toks in Hsplit.
    injection Hsplit as Hz _. inversion Hall as [|? ? [Hz0 Hz1] _]; subst.
    pose proof (DecimalText.py_int_of_str z Hz0 Hz1) as Hi.
    rewrite <- Hz in Hi. discriminate Hi. }
  rewrite parse_ports_list; [| exact Hs |].
  - rewrite Hsplit. rewrite (map_result_ok toks zs); [reflexivity|].
    unfold toks. clear -Hall. induction Hall as [|z zs [Hz Hl] _ IH]; simpl.
    + constructor.
    + constructor; [now apply DecimalText.py_int_of_str | exact IH].
  - apply StrFacts.contains_join; [reflexivity | now apply Hclean].
Qed.

Lemma port_list_round_trip_witness :
  parse_ports (Some (py_join "," (map py_str_of_int [443; 0; 443; 70000])))
  = Ok (Some [443; 0; 443; 70000]).
Proof.
  apply (port_list_round_trip [443; 0; 443; 70000]).
  - discriminate.
  - repeat (apply Forall_cons;
            [split; [lia | apply Z.leb_le; reflexivity]|]).
    apply Forall_nil.
Defined.

(** *** Numbers out of bounds *)

(** A text whose part before the first hyphen is not a numeral is refused:
    the hyphen makes it a range, and [int] fails on that part. *)
Lemma parse_ports_first_token_bad P R :
  Str.contains "-" P = false -> Str.py_int P = Raise ValueError ->
  parse_ports (Some (P ++ String "-" R)%string) = Raise ValueError.
Proof.
  intros Hc Hbad.
  assert (Hs : Str.contains "-" (P ++ String "-" R)%string = true).
  { rewrite StrFacts.contains_app. simpl. apply orb_true_r. }
  pose proof (StrFacts.split_app "-"%char P R Hc) as Hsplit.
  destruct (P ++ String "-" R)%string as [|c s]; [discriminate|].
  unfold parse_ports. rewrite Hs, Hsplit.
  destruct (Str.split "-" R) as [|b [|? ?]]; try reflexivity.
  now rewrite Hbad.
Qed.

(** A text with two hyphens is refused: the unpacking fails. *)
Lemma parse_ports_two_hyphens P R :
  Str.contains "-" P = false ->
  parse_ports (Some (P ++ String "-" (String "-" R))%string)
  = Raise ValueError.
Proof.
  intros Hc.
  assert (Hs : Str.contains "-" (P ++ String "-" (String "-" R))%string
               = true).
  { rewrite StrFacts.contains_app. simpl. apply orb_true_r. }
  pose proof (StrFacts.split_app "-"%char P (String "-" R) Hc) as Hsplit.
  change (Str.split "-" (String "-" R))
    with (EmptyString :: Str.split "-" R) in Hsplit.
  pose proof (StrFacts.split_nonempty "-"%char R) as Hne.
  destruct (P ++ String "-" (String "-" R))%string as [|c s]; [discriminate|].
  unfold parse_ports. rewrite Hs, Hsplit.
  destruct (Str.split "-" R) as [|b l]; [congruence | reflexivity].
Qed.

Lemma str_of_negative z :
  z < 0 -> exists d, py_str_of_int z = String "-" d.
Proof.
  destruct z as [|p|p]; try lia. intros _.
  unfold py_str_of_int. simpl. eauto.
Qed.

Lemma py_int_with_comma P :
  Str.contains "," P = true -> Str.py_int P = Raise ValueError.
Proof.
  intros Hc. destruct (Str.py_int P) as [z|e] eqn:E.
  - apply StrFacts.py_int_no_comma in E. congruence.
  - now rewrite (py_int_raises _ _ E).
Qed.

Lemma string_app_assoc (a b c : string) :
  ((a ++ b) ++ c)%string = (a ++ (b ++ c))%string.
Proof. induction a as [|x a IH]; simpl; [reflexivity | now rewrite IH]. Qed.

(** In a comma list written from numbers, the text before the first minus
    sign is empty or ends in a comma. *)
Lemma list_text_negative zs :
  Exists (fun z => z < 0) zs ->
  exists P R,
    list_text zs = (P ++ String "-" R)%string
    /\ Str.contains "-" P = false
    /\ Str.py_int P = Raise ValueError.
Proof.
  unfold list_text.
  induction zs as [|z [|z' rest] IH]; intros Hex.
  - inversion Hex.
  - inversion Hex as [? ? Hz|? ? Hrest]; subst; [|inversion Hrest].
    destruct (str_of_negative z Hz) as [d Hd].
    exists EmptyString, d. simpl. rewrite Hd. auto.
  - destruct (Z.ltb_spec z 0) as [Hz|Hz].
    + destruct (str_of_negative z Hz) as [d Hd].
      exists EmptyString.
      exists (d ++ "," ++ py_join "," (map py_str_of_int (z' :: rest)))%string.
      change (py_join "," (map py_str_of_int (z :: z' :: rest)))
        with (py_str_of_int z ++ ","
              ++ py_join "," (map py_str_of_int (z' :: rest)))%string.
      rewrite Hd. auto.
    + assert (Hrest : Exists (fun z => z < 0) (z' :: rest))
        by (inversion Hex; subst; [lia | assumption]).
      destruct (IH Hrest) as (P & R & HP & Hc & _).
      exists (py_str_of_int z ++ "," ++ P)%string, R.
      change (py_join "," (map py_str_of_int (z :: z' :: rest)))
        with (py_str_of_int z ++ ","
              ++ py_join "," (map py_str_of_int (z' :: rest)))%string.
      rewrite HP. split; [|split].
      * now rewrite !string_app_assoc.
      * rewrite !StrFacts.contains_app, Hc.
        rewrite (DecimalText.str_of_int_clean "-"%char z Hz eq_refl).
        reflexivity.
      * apply py_int_with_comma.
        rewrite !StrFacts.contains_app. simpl. apply orb_true_r.
Qed.

Lemma list_text_negative_refused zs :
  Exists (fun z => z < 0) zs ->
  parse_ports (Some (list_text zs)) = Raise ValueError.
Proof.
  intros H. destruct (list_text_negative zs H) as (P & R & -> & Hc & Hbad).
  now apply parse_ports_first_token_bad.
Qed.

Lemma range_text_negative_refused x y :
  x < 0 \/ y < 0 ->
  parse_ports (Some (range_text x y)) = Raise ValueError.
Proof.
  intros H. unfold range_text.
  destruct (Z.ltb_spec x 0) as [Hx|Hx].
  - destruct (str_of_negative x Hx) as [d ->].
    apply (parse_ports_first_token_bad EmptyString); reflexivity.
  - assert (Hy : y < 0) by lia.
    destruct (str_of_negative y Hy) as [d ->].
    apply parse_ports_two_hyphens.
    apply (DecimalText.str_of_int_clean "-"%char x Hx eq_refl).
Qed.

Lemma main_probes_what_resolves w a r :
  parse_ports (ports a) = Ok r -> 0 < threads a ->
  Permutation (main_probed (main w a))
              (map (fun p => (target a, p)) (ports_or_default r)).
Proof.
  intros Hparse Hpos.
  assert (Hprobed : main_probed (main w a)
                    = probed (scan_host w (target a) r (threads a))).
  { unfold main. rewrite Hparse. cbv zeta.
    destruct (returned (scan_host w (target a) r (threads a)));
      [|reflexivity].
    destruct (output a) as [[|c path]|]; try reflexivity.
    now destruct (write_error w (String c path)). }
  rewrite Hprobed.
  apply (scan_host_probes_each_port w (target a) r (threads a) Hpos).
Qed.

(** C5, as stated, fails: ["0,80"] holds a number outside 1..65535, yet
    [main] resolves it to [[0; 80]] and probes both ports. *)
Lemma out_of_bounds_not_rejected :
  parse_ports (Some "0,80") = Ok (Some [0; 80])
  /\ main_probed (main example_world (example_args (Some "0,80")))
     = [("127.0.0.1", 80); ("127.0.0.1", 0)]
  /\ ~ rejected_before_probing example_world (example_args (Some "0,80")).
Proof.
  split; [reflexivity|]. split; [vm_compute; reflexivity|].
  intros [_ H]. vm_compute in H. discriminate H.
Qed.

(** C5, amended. The port argument is not checked against 1..65535. A
    number written with a minus sign does get the argument refused: in a
    comma list or in a range written from numbers of which one is negative,
    the sign is read as the range separator and [main] raises [ValueError]
    before any probe runs. A number that is 0 or above 65535 does not: a
    comma list whose tokens [int] accepts resolves to exactly the integers
    written, whatever their size; and whatever an argument resolves to,
    list, range or default, [main] runs one probe for each resolved port
    when the pool size is positive. *)
Theorem port_numbers_not_bounds_checked w a :
  (forall zs,
      Exists (fun z => z < 0) zs -> ports a = Some (list_text zs) ->
      main w a = {| main_probed := []; main_written := None;
                    main_returned := Raise ValueError |})
  /\ (forall x y,
        x < 0 \/ y < 0 -> ports a = Some (range_text x y) ->
        main w a = {| main_probed := []; main_written := None;
                      main_returned := Raise ValueError |})
  /\ (forall s zs,
        ports a = Some s -> s <> EmptyString ->
        Str.contains "-" s = false ->
        Forall2 (fun tok z => Str.py_int tok = Ok z) (Str.split "," s) zs ->
        parse_ports (ports a) = Ok (Some zs))
  /\ (forall r,
        parse_ports (ports a) = Ok r -> 0 < threads a ->
        Permutation (main_probed (main w a))
                    (map (fun p => (target a, p)) (ports_or_default r))).
Proof.
  split; [|split; [|split]].
  - intros zs Hneg Hp. apply main_parse_error. rewrite Hp.
    now apply list_text_negative_refused.
  - intros x y Hneg Hp. apply main_parse_error. rewrite Hp.
    now apply range_text_negative_refused.
  - intros s zs Hp Hne Hc HF.
    rewrite Hp, (parse_ports_list _ Hne Hc).
    now rewrite (map_result_ok _ _ HF).
  - intros r. apply main_probes_what_resolves.
Qed.

Lemma port_numbers_not_bounds_checked_witness :
  main example_world (example_args (Some (list_text [80; -5])))
  = {| main_probed := []; main_written := None;
       main_returned := Raise ValueError |}
  /\ main example_world (example_args (Some (range_text 5 (-1))))
     = {| main_probed := []; main_written := None;
          main_returned := Raise ValueError |}
  /\ parse_ports (Some "0,70000") = Ok (Some [0; 70000])
  /\ Permutation
       (main_probed (main example_world (example_args (Some "0-2"))))
       [("127.0.0.1", 0); ("127.0.0.1", 1); ("127.0.0.1", 2)].
Proof.
  split; [|split; [|split]].
  - apply (proj1 (port_numbers_not_bounds_checked example_world
                    (example_args (Some (list_text [80; -5])))) [80; -5]).
    + apply Exists_cons_tl, Exists_cons_hd. lia.
    + reflexivity.
  - apply (proj1 (proj2 (port_numbers_not_bounds_checked example_world
                           (example_args (Some (range_text 5 (-1))))))
             5 (-1)).
    + right. lia.
    + reflexivity.
  - apply (proj1 (proj2 (proj2 (port_numbers_not_bounds_checked
                                  example_world
                                  (example_args (Some "0,70000")))))
             "0,70000" [0; 70000]).
    + reflexivity.
    + discriminate.
    + reflexivity.
    + repeat constructor.
  - apply (proj2 (proj2 (proj2 (port_numbers_not_bounds_checked
                                  example_world
                                  (example_args (Some "0-2")))))
             (Some [0; 1; 2])).
    + reflexivity.
    + simpl. lia.
Defined.

(** ** [main], end to end *)

Lemma parse_ports_raises arg e :
  parse_ports arg = Raise e -> e = ValueError \/ e = OverflowError.
Proof.
  destruct arg as [s|]; [|discriminate].
  destruct s as [|c s]; [discriminate|].
  set (str := String c s). unfold parse_ports. fold str.
  destruct (Str.contains "-" str).
  - destruct (Str.split "-" str) as [|t1 [|t2 [|? ?]]];
      try (now intros [= <-]; left).
    destruct (Str.py_int t1) as [start|e1] eqn:E1; simpl.
    + destruct (Str.py_int t2) as [end_|e2] eqn:E2; simpl.
      * unfold py_list_range.
        destruct (ssize_max <? end_ + 1 - start); simpl;
          [intros [= <-]; now right | discriminate].
      * intros [= <-]. left. exact (py_int_raises _ _ E2).
    + intros [= <-]. left. exact (py_int_raises _ _ E1).
  - destruct (map_result Str.py_int (Str.split "," str)) as [zs|e0] eqn:E;
      simpl; [discriminate|].
    intros [= <-]. left. clear -E. revert E.
    induction (Str.split "," str) as [|x l IH]; simpl; [discriminate|].
    destruct (Str.py_int x) as [z|e1] eqn:E1; simpl.
    + destruct (map_result Str.py_int l) as [ys|e2]; simpl; [discriminate|].
      intros [= <-]. now apply IH.
    + intros [= <-]. exact (py_int_raises _ _ E1).
Qed.

Lemma scan_host_nonpositive w host ports threads :
  threads <= 0 ->
  scan_host w host ports threads
  = {| probed := []; returned := Raise ValueError |}.
Proof.
  intros H. unfold scan_host, scan_pool, Pool.executor.
  destruct (Z.leb_spec threads 0); [reflexivity | lia].
Qed.

(** X12. With a pool size of zero or less [main] runs no probe, writes no
    file and ends with an exception, whatever the target and the port
    argument; when the port argument resolves, the exception is the
    [ValueError] of the executor's constructor. *)
Theorem main_nonpositive_threads w a :
  threads a <= 0 ->
  main_probed (main w a) = []
  /\ main_written (main w a) = None
  /\ (exists e, main_returned (main w a) = Raise e)
  /\ (forall l, parse_ports (ports a) = Ok l ->
                main_returned (main w a) = Raise ValueError).
Proof.
  intros H. unfold main.
  destruct (parse_ports (ports a)) as [l|e] eqn:E.
  - rewrite (scan_host_nonpositive w (target a) l (threads a) H). cbn.
    repeat split; eauto.
  - cbn. repeat split; eauto. discriminate.
Qed.

Lemma main_nonpositive_threads_witness :
  main_probed (main example_world
                 {| target := "127.0.0.1"; ports := Some "80,443";
                    output := Some "scan.json"; threads := 0 |}) = []
  /\ main_written (main example_world
                     {| target := "127.0.0.1"; ports := Some "80,443";
                        output := Some "scan.json"; threads := 0 |}) = None
  /\ (exists e,
        main_returned (main example_world
                         {| target := "127.0.0.1"; ports := Some "80,443";
                            output := Some "scan.json"; threads := 0 |})
        = Raise e)
  /\ (forall l,
        parse_ports (ports {| target := "127.0.0.1"; ports := Some "80,443";
                              output := Some "scan.json"; threads := 0 |})
        = Ok l ->
        main_returned (main example_world
                         {| target := "127.0.0.1"; ports := Some "80,443";
                            output := Some "scan.json"; threads := 0 |})
        = Raise ValueError).
Proof.
  apply (main_nonpositive_threads example_world
           {| target := "127.0.0.1"; ports := Some "80,443";
              output := Some "scan.json"; threads := 0 |}).
  simpl. lia.
Defined.

(** X15. When [main] has written the output file, the port argument had
    resolved, [scan_host] had returned a report for the resolved ports, the
    file is the one named by [--output], and its content reads back as that
    very report; [main] then ends normally. *)
Theorem main_output_reads_back w a path content :
  main_written (main w a) = Some (path, content) ->
  exists l results,
    parse_ports (ports a) = Ok l
    /\ returned (scan_host w (target a) l (threads a)) = Ok results
    /\ output a = Some path
    /\ content = Json.dumps results
    /\ Json.loads content = Ok results
    /\ main_returned (main w a) = Ok tt.
Proof.
  unfold main. destruct (parse_ports (ports a)) as [l|e]; [|discriminate].
  destruct (returned (scan_host w (target a) l (threads a))) as [r|e] eqn:E;
    [|discriminate].
  cbv zeta. destruct (output a) as [[|c p]|]; try discriminate.
  destruct (write_error w (String c p)); [discriminate|].
  cbn. intros [= <- <-]. exists l, r.
  pose proof (scan_host_is_scan_report _ _ _ _ _ E) as Hr.
  split; [reflexivity|]. split; [exact E|]. do 2 (split; [reflexivity|]).
  split; [|reflexivity].
  apply (JsonFacts.loads_dumps r). now apply JsonFacts.scan_report_wf.
Qed.

Lemma main_output_reads_back_witness :
  exists l results,
    parse_ports (ports (example_args (Some "8080,9999,9000"))) = Ok l
    /\ returned (scan_host example_world
                   (target (example_args (Some "8080,9999,9000"))) l
                   (threads (example_args (Some "8080,9999,9000"))))
       = Ok results
    /\ output (example_args (Some "8080,9999,9000")) = Some "scan.json"
    /\ Json.dumps example_report = Json.dumps results
    /\ Json.loads (Json.dumps example_report) = Ok results
    /\ main_returned (main example_world
                        (example_args (Some "8080,9999,9000")))
       = Ok tt.
Proof.
  apply (main_output_reads_back example_world
           (example_args (Some "8080,9999,9000")) "scan.json").
  vm_compute. reflexivity.
Defined.

(** ** The written text *)

Module AsciiFacts.
Import Json JsonSpec.

Lemma escape_char_plain c :
  Forall (fun x => is_plain_ascii x = true) (escape_char c).
Proof.
  apply Forall_forall. apply forallb_forall.
  destruct c as [[] [] [] [] [] [] [] []]; vm_compute; reflexivity.
Qed.

Lemma encode_str_plain s :
  Forall (fun x => is_plain_ascii x = true) (encode_str s).
Proof.
  unfold encode_str. constructor; [reflexivity|].
  apply Forall_app. split; [|repeat constructor].
  induction (chars s) as [|c l IH]; simpl; [constructor|].
  apply Forall_app. split; [apply escape_char_plain | exact IH].
Qed.

Lemma encode_int_plain z :
  Forall (fun x => is_plain_ascii x = true) (encode_int z).
Proof.
  assert (H : forall u, Forall (fun x => is_plain_ascii x = true)
                               (uint_chars u))
    by (induction u; simpl; constructor; auto).
  destruct z; simpl; [repeat constructor | apply H |].
  constructor; [reflexivity | apply H].
Qed.

Lemma newline_indent_plain k :
  Forall (fun x => is_plain_ascii x = true) (newline_indent k).
Proof.
  unfold newline_indent. constructor; [reflexivity|].
  induction (2 * k)%nat; simpl; constructor; auto.
Qed.

Lemma encode_plain n :
  (forall v level, (size v <= n)%nat ->
                   Forall (fun x => is_plain_ascii x = true) (encode level v))
  /\ (forall xs level,
        (size_items xs <= n)%nat ->
        Forall (fun x => is_plain_ascii x = true) (encode_items level xs))
  /\ (forall kxs level,
        (size_members kxs <= n)%nat ->
        Forall (fun x => is_plain_ascii x = true) (encode_members level kxs)).
Proof.
  induction n as [|n (IHv & IHi & IHm)].
  - split; [|split].
    + intros v ? H. pose proof (JsonFacts.size_pos v). lia.
    + intros [|x xs] ? H; simpl in *; [constructor | lia].
    + intros [|[k x] kxs] ? H; simpl in *; [constructor | lia].
  - split; [|split].
    + intros v level Hs.
      destruct v as [|z|s|[|x xs]|[|[key x] kxs]];
        try change (size (PyList (x :: xs)))
              with (S (S (size x + size_items xs))) in *;
        try change (size (PyDict ((key, x) :: kxs)))
              with (S (S (size x + size_members kxs))) in *.
      * repeat constructor.
      * apply encode_int_plain.
      * apply encode_str_plain.
      * repeat constructor.
      * rewrite JsonFacts.encode_list_cons. constructor; [reflexivity|].
        repeat (apply Forall_app; split);
          try apply newline_indent_plain; try (repeat constructor);
          [apply IHv | apply IHi]; lia.
      * repeat constructor.
      * rewrite JsonFacts.encode_dict_cons. constructor; [reflexivity|].
        repeat (apply Forall_app; split);
          try apply newline_indent_plain; try apply encode_str_plain;
          try (repeat constructor);
          [apply IHv | apply IHm]; lia.
    + intros [|x xs] level Hs; [constructor|].
      change (size_items (x :: xs)) with (S (size x + size_items xs)) in *.
      cbn [encode_items]. constructor; [reflexivity|].
      repeat (apply Forall_app; split); try apply newline_indent_plain;
        [apply IHv | apply IHi]; lia.
    + intros [|[k x] kxs] level Hs; [constructor|].
      change (size_members ((k, x) :: kxs))
        with (S (size x + size_members kxs)) in *.
      cbn [encode_members]. constructor; [reflexivity|].
      repeat (apply Forall_app; split); try apply newline_indent_plain;
        try apply encode_str_plain; try (repeat constructor);
        [apply IHv | apply IHm]; lia.
Qed.

Lemma dumps_plain v :
  Forall (fun x => is_plain_ascii x = true) (chars (dumps v)).
Proof.
  unfold dumps, chars. rewrite list_ascii_of_string_of_list_ascii.
  apply (proj1 (encode_plain (size v)) v 0%nat). lia.
Qed.

End AsciiFacts.

(** X14. The file [main] writes is plain ASCII: every character of it is
    a printable ASCII character or a line feed, whatever characters the
    host name holds. *)
Theorem written_file_is_ascii w a path content :
  main_written (main w a) = Some (path, content) ->
  Forall (fun c => is_plain_ascii c = true) (list_ascii_of_string content).
Proof.
  unfold main. destruct (parse_ports (ports a)) as [l|e]; [|discriminate].
  destruct (returned (scan_host w (target a) l (threads a))) as [r|e];
    [|discriminate].
  simpl. destruct (output a) as [[|c p]|]; try discriminate.
  destruct (write_error w (String c p)); [discriminate|].
  intros [= _ <-]. apply AsciiFacts.dumps_plain.
Qed.

Lemma written_file_is_ascii_witness :
  Forall (fun c => is_plain_ascii c = true)
         (list_ascii_of_string
            (Json.dumps
               (PyDict (report_dict (String (ascii_of_nat 233) "t.example")
                          "2024-05-01T12:00:00.000000" [] 0)))).
Proof.
  apply (written_file_is_ascii example_world
           {| target := String (ascii_of_nat 233) "t.example";
              ports := Some "5-1"; output := Some "scan.json";
              threads := 50 |}
           "scan.json").
  vm_compute. reflexivity.
Defined.

(** ** The password analyzer *)

Module PasswordFacts.
Import Password.

Lemma complexity_score_range c :
  0 <= complexity_score c <= 40
  /\ (complexity_score c = 40 <->
      uppercase c = true /\ lowercase c = true
      /\ numbers c = true /\ special c = true)
  /\ (special c = false -> complexity_score c <= 30).
Proof.
  unfold complexity_score.
  destruct (uppercase c), (lowercase c), (numbers c), (special c);
    (split; [lia|]); (split; [|intros; lia]);
    (split; [intros; try lia; auto | intros (? & ? & ? & ?); congruence || lia]).
Qed.

Lemma calculate_score_raw p :
  calculate_score p = Z.max 0 (Z.min 100 (raw_score p)).
Proof.
  unfold calculate_score, raw_score. destruct (check_common p); f_equal;
    f_equal; lia.
Qed.

Lemma chars_length s : length (Json.chars s) = String.length s.
Proof. induction s; simpl; auto. Qed.

Lemma is_special_lower c : is_special (lower_char c) = is_special c.
Proof. destruct c as [[] [] [] [] [] [] [] []]; vm_compute; reflexivity. Qed.

Lemma common_words_plain :
  forallb (fun w => (length (Json.chars w) <=? 8)%nat
                    && negb (existsb is_special (Json.chars w)))
          COMMON_PASSWORDS = true.
Proof. vm_compute. reflexivity. Qed.

(** A password on the list, in any capitalisation, has at most 8
    characters and none of the special ones. *)
Lemma common_short_and_plain p :
  check_common p = true ->
  (String.length p <= 8)%nat /\ special (check_complexity p) = false.
Proof.
  unfold check_common. intros H. apply existsb_exists in H.
  destruct H as (w & Hw & He). apply String.eqb_eq in He.
  pose proof common_words_plain as Hall.
  rewrite forallb_forall in Hall. specialize (Hall w Hw).
  apply andb_true_iff in Hall. destruct Hall as [Hlen Hsp].
  apply Nat.leb_le in Hlen. apply negb_true_iff in Hsp.
  assert (Hl : lower (Json.chars p) = Json.chars w).
  { rewrite <- He. unfold Json.chars at 2.
    now rewrite list_ascii_of_string_of_list_ascii. }
  split.
  - rewrite <- chars_length, <- (length_map lower_char). fold (lower (Json.chars p)).
    now rewrite Hl.
  - simpl. unfold search_class. rewrite <- Hsp, <- Hl. unfold lower.
    clear. induction (Json.chars p) as [|c l IH]; simpl; [reflexivity|].
    now rewrite is_special_lower, IH.
Qed.

Lemma raw_score_le_80 p : raw_score p <= 80.
Proof.
  unfold raw_score.
  destruct (complexity_score_range (check_complexity p)) as (Hc & _ & _).
  destruct (check_common p); lia.
Qed.

Lemma strengths_differ :
  STRONG <> GOOD /\ STRONG <> MODERATE /\ STRONG <> WEAK
  /\ GOOD <> MODERATE /\ GOOD <> WEAK /\ MODERATE <> WEAK.
Proof. repeat split; intros H; vm_compute in H; discriminate H. Qed.

Lemma raw_score_80_iff p :
  80 <= raw_score p <->
  (14 <= String.length p)%nat /\ fully_complex p /\ check_patterns p = [].
Proof.
  unfold fully_complex.
  destruct (complexity_score_range (check_complexity p)) as (Hc & Hc40 & Hsp).
  split.
  - intros H. unfold raw_score in H.
    assert (Hk : check_common p = false).
    { destruct (check_common p); [lia | reflexivity]. }
    rewrite Hk in H.
    assert (Hw : length (check_patterns p) = 0%nat) by lia.
    split; [lia|]. split; [apply Hc40; lia|].
    now destruct (check_patterns p).
  - intros (Hlen & Hfull & Hw). unfold raw_score. rewrite Hw.
    apply Hc40 in Hfull as Hc'.
    assert (Hk : check_common p = false).
    { destruct (check_common p) eqn:E; [|reflexivity].
      destruct (common_short_and_plain p E) as [_ Hs].
      destruct Hfull as (_ & _ & _ & Hs'). congruence. }
    rewrite Hk, Hc'. simpl length. lia.
Qed.

Lemma search_only_all cls s :
  search_only cls s = true ->
  Forall (fun c => cls c = true \/ c = Json.LF) s.
Proof.
  destruct s as [|c s]; [discriminate|]. simpl. intros H.
  apply andb_true_iff in H. destruct H as [Hc Hs].
  constructor; [auto|]. clear c Hc. revert Hs.
  induction s as [|c [|c' s] IH]; intros H.
  - constructor.
  - simpl in H. apply orb_true_iff in H. constructor; [|constructor].
    destruct H as [H|H]; [auto | right; now apply Ascii.eqb_eq].
  - change (class_to_end cls (c :: c' :: s))
      with (cls c && class_to_end cls (c' :: s)) in H.
    apply andb_true_iff in H. destruct H as [Hc Hs]. constructor; auto.
Qed.

Lemma search_class_none (cls cls' : ascii -> bool) s :
  (forall c, cls c = true \/ c = Json.LF -> cls' c = false) ->
  Forall (fun c => cls c = true \/ c = Json.LF) s ->
  search_class cls' s = false.
Proof.
  intros Hc Hall. unfold search_class.
  induction Hall as [|c l H _ IH]; simpl; [reflexivity|].
  now rewrite (Hc c H), IH.
Qed.

Lemma letter_excludes c :
  is_letter c = true \/ c = Json.LF ->
  Str.is_digit c = false /\ is_special c = false.
Proof.
  intros [H| ->]; [|split; reflexivity]. revert H.
  destruct c as [[] [] [] [] [] [] [] []]; vm_compute; intuition congruence.
Qed.

Lemma digit_excludes c :
  Str.is_digit c = true \/ c = Json.LF ->
  is_upper c = false /\ is_lower c = false /\ is_special c = false.
Proof.
  intros [H| ->]; [|repeat split; reflexivity]. revert H.
  destruct c as [[] [] [] [] [] [] [] []]; vm_compute; intuition congruence.
Qed.

Lemma warning_only_letters p :
  In "Contains only letters" (check_patterns p) ->
  search_only is_letter (Json.chars p) = true.
Proof.
  unfold check_patterns. intros H.
  repeat (apply in_app_or in H; destruct H as [H|H]);
    match type of H with
    | In _ (if ?b then _ else _) => destruct b
    end; simpl in H; try tauto; destruct H as [H|[]]; discriminate H.
Qed.

Lemma warning_only_numbers p :
  In "Contains only numbers" (check_patterns p) ->
  search_only Str.is_digit (Json.chars p) = true.
Proof.
  unfold check_patterns. intros H.
  repeat (apply in_app_or in H; destruct H as [H|H]);
    match type of H with
    | In _ (if ?b then _ else _) => destruct b
    end; simpl in H; try tauto; destruct H as [H|[]]; discriminate H.
Qed.

End PasswordFacts.

(** X16. The score of a password is never above 80: the length counts for
    at most 40 and the four character classes for 10 each, so the upper
    clamp at 100 is never reached. It is never below 0 either. *)
Theorem password_score_range p :
  0 <= Password.calculate_score p <= 80.
Proof.
  rewrite PasswordFacts.calculate_score_raw.
  pose proof (PasswordFacts.raw_score_le_80 p). lia.
Qed.

(** X17. [analyze_password] rates a password STRONG exactly when it has at
    least 14 characters, holds an upper-case letter, a lower-case letter, a
    digit and a special character, and sets off no pattern warning. *)
Theorem password_strong_iff md5_hex sha256_hex p :
  Password.strength (Password.analyze_password md5_hex sha256_hex p)
  = Password.STRONG
  <-> (14 <= String.length p)%nat
      /\ Password.fully_complex p
      /\ Password.check_patterns p = [].
Proof.
  rewrite <- PasswordFacts.raw_score_80_iff.
  unfold Password.analyze_password. cbn [Password.strength].
  rewrite PasswordFacts.calculate_score_raw.
  pose proof (PasswordFacts.raw_score_le_80 p) as Hle.
  destruct PasswordFacts.strengths_differ as (H1 & H2 & H3 & _).
  destruct (Z.leb_spec 80 (Z.max 0 (Z.min 100 (Password.raw_score p)))).
  - split; [lia | reflexivity].
  - split; [|lia]. intros Hs.
    destruct (60 <=? _); [now symmetry in Hs|].
    destruct (40 <=? _); now symmetry in Hs.
Qed.

(** X18. A password on the list of common passwords, in any
    capitalisation, scores at most 24 and is rated WEAK. *)
Theorem common_password_is_weak md5_hex sha256_hex p :
  Password.check_common p = true ->
  Password.calculate_score p <= 24
  /\ Password.strength (Password.analyze_password md5_hex sha256_hex p)
     = Password.WEAK.
Proof.
  intros Hc.
  assert (Hs : Password.calculate_score p <= 24).
  { rewrite PasswordFacts.calculate_score_raw. unfold Password.raw_score.
    rewrite Hc.
    destruct (PasswordFacts.common_short_and_plain p Hc) as [Hlen Hsp].
    destruct (PasswordFacts.complexity_score_range
                (Password.check_complexity p)) as (_ & _ & H30).
    specialize (H30 Hsp). lia. }
  split; [exact Hs|].
  unfold Password.analyze_password. cbn [Password.strength].
  destruct (Z.leb_spec 80 (Password.calculate_score p)); [lia|].
  destruct (Z.leb_spec 60 (Password.calculate_score p)); [lia|].
  destruct (Z.leb_spec 40 (Password.calculate_score p)); [lia|].
  reflexivity.
Qed.

Lemma common_password_is_weak_witness :
  Password.calculate_score "TrustNo1" <= 24
  /\ Password.strength
       (Password.analyze_password (fun s => s) (fun s => s) "TrustNo1")
     = Password.WEAK.
Proof.
  apply (common_password_is_weak (fun s => s) (fun s => s) "TrustNo1").
  reflexivity.
Defined.

(** X19. A password that draws the warning "Contains only letters" or
    "Contains only numbers" scores at most 55, so it is rated MODERATE or
    WEAK however long it is. *)
Theorem single_class_password_not_good md5_hex sha256_hex p :
  In "Contains only letters" (Password.check_patterns p)
  \/ In "Contains only numbers" (Password.check_patterns p) ->
  Password.calculate_score p <= 55
  /\ (Password.strength (Password.analyze_password md5_hex sha256_hex p)
      = Password.MODERATE
      \/ Password.strength (Password.analyze_password md5_hex sha256_hex p)
         = Password.WEAK).
Proof.
  intros H.
  assert (Hs : Password.calculate_score p <= 55).
  { rewrite PasswordFacts.calculate_score_raw. unfold Password.raw_score.
    assert (Hw : (1 <= length (Password.check_patterns p))%nat).
    { destruct H as [H|H]; destruct (Password.check_patterns p);
        simpl in *; try tauto; lia. }
    assert (Hc : Password.complexity_score (Password.check_complexity p) <= 20).
    { unfold Password.complexity_score, Password.check_complexity.
      cbn [Password.uppercase Password.lowercase Password.numbers
           Password.special].
      destruct H as [H|H].
      - apply PasswordFacts.warning_only_letters,
          PasswordFacts.search_only_all in H.
        rewrite (PasswordFacts.search_class_none Password.is_letter
                   Str.is_digit _
                   (fun c Hc => proj1 (PasswordFacts.letter_excludes c Hc)) H).
        rewrite (PasswordFacts.search_class_none Password.is_letter
                   Password.is_special _
                   (fun c Hc => proj2 (PasswordFacts.letter_excludes c Hc)) H).
        destruct (Password.search_class Password.is_upper _),
          (Password.search_class Password.is_lower _); lia.
      - apply PasswordFacts.warning_only_numbers,
          PasswordFacts.search_only_all in H.
        rewrite (PasswordFacts.search_class_none Str.is_digit
                   Password.is_upper _
                   (fun c Hc => proj1 (PasswordFacts.digit_excludes c Hc)) H).
        rewrite (PasswordFacts.search_class_none Str.is_digit
                   Password.is_lower _
                   (fun c Hc => proj1 (proj2 (PasswordFacts.digit_excludes c Hc)))
                   H).
        rewrite (PasswordFacts.search_class_none Str.is_digit
                   Password.is_special _
                   (fun c Hc => proj2 (proj2 (PasswordFacts.digit_excludes c Hc)))
                   H).
        destruct (Password.search_class Str.is_digit _); lia. }
    destruct (Password.check_common p); lia. }
  split; [exact Hs|].
  unfold Password.analyze_password. cbn [Password.strength].
  destruct (Z.leb_spec 80 (Password.calculate_score p)); [lia|].
  destruct (Z.leb_spec 60 (Password.calculate_score p)); [lia|].
  destruct (Z.leb_spec 40 (Password.calculate_score p)); auto.
Qed.

Lemma single_class_password_not_good_witness :
  Password.calculate_score "correctHorseBatteryStaple" <= 55
  /\ (Password.strength
        (Password.analyze_password (fun s => s) (fun s => s)
           "correctHorseBatteryStaple")
      = Password.MODERATE
      \/ Password.strength
           (Password.analyze_password (fun s => s) (fun s => s)
              "correctHorseBatteryStaple")
         = Password.WEAK).
Proof.
  apply (single_class_password_not_good (fun s => s) (fun s => s)
           "correctHorseBatteryStaple").
  left. vm_compute. auto.
Defined.
